(** * English-translate-study: the annotation engine, the flashcard queue,
      the saved-words collection and the AI service, verified

    A shallow embedding of the logic-bearing TypeScript of the repository:

    - [App.tsx]                       the saved-words collection;
    - [components/VocabularyView.tsx] the flashcard review queue;
    - [services/aiService.ts]         the retrying call to the AI service
                                      and the four operations built on it;
    - [components/InteractiveText]    the tokenizer/annotator, the sentence
                                      finder and the lookup dispatcher.

    JavaScript strings are modelled by Rocq strings: a character is one
    code unit in the range U+0000..U+00FF (Latin-1), which covers every
    character class the source's regular expressions name ([a-zA-Z0-9],
    [À-ÿ], ['-], [.!?], white space). *)

From Stdlib Require Import ZArith QArith Lia Ascii String Factorial.
From stdpp Require Import gmap strings list pretty.

Set Warnings "-register-all".
Close Scope Q_scope.
Local Open Scope string_scope.

(** ** JavaScript string primitives used by the source *)

Module JS.

Definition code (c : ascii) : nat := nat_of_ascii c.

Definition between (lo hi : nat) (c : ascii) : bool :=
  (lo <=? code c)%nat && (code c <=? hi)%nat.

(** [String.prototype.toLowerCase] on U+0000..U+00FF: A-Z and the
    upper-case letters U+00C0..U+00DE (except the sign U+00D7) move
    32 places up; every other code unit is left alone. *)
Definition lower_char (c : ascii) : ascii :=
  if between 65 90 c then ascii_of_nat (code c + 32)
  else if between 192 222 c && negb (code c =? 215)%nat
       then ascii_of_nat (code c + 32)
       else c.

Fixpoint toLowerCase (s : string) : string :=
  match s with
  | EmptyString => EmptyString
  | String c s' => String (lower_char c) (toLowerCase s')
  end.

(** White space of [trim] and of the regexp class [\s]:
    TAB, LF, VT, FF, CR, SPACE and NBSP. *)
Definition is_space (c : ascii) : bool :=
  between 9 13 c || (code c =? 32)%nat || (code c =? 160)%nat.

Fixpoint trimStart (s : string) : string :=
  match s with
  | EmptyString => EmptyString
  | String c s' => if is_space c then trimStart s' else s
  end.

(** [trimEnd] keeps a character when it is not white space or when
    something non-blank follows it. *)
Fixpoint trimEnd (s : string) : string :=
  match s with
  | EmptyString => EmptyString
  | String c s' =>
      match trimEnd s' with
      | EmptyString => if is_space c then EmptyString else String c EmptyString
      | t => String c t
      end
  end.

Definition trim (s : string) : string := trimEnd (trimStart s).

Fixpoint startsWith (p s : string) : bool :=
  match p, s with
  | EmptyString, _ => true
  | String a p', String b s' => Ascii.eqb a b && startsWith p' s'
  | String _ _, EmptyString => false
  end.

(** [s.includes(p)]: [p] occurs in [s] as a contiguous substring. *)
Fixpoint includes (s p : string) : bool :=
  startsWith p s ||
  match s with
  | EmptyString => false
  | String _ s' => includes s' p
  end.

(** [parts.join(sep)] *)
Fixpoint join (sep : string) (parts : list string) : string :=
  match parts with
  | [] => EmptyString
  | [p] => p
  | p :: ps => p ++ sep ++ join sep ps
  end.

(** [s.substring(0, n)] *)
Fixpoint substring0 (n : nat) (s : string) : string :=
  match n, s with
  | S n', String c s' => String c (substring0 n' s')
  | _, _ => EmptyString
  end.

(** Characters of [s] that pass [keep], in order: what
    [s.replace(/[...]+/g, '')] leaves when [keep] is the complement of
    the class. *)
Fixpoint keep_chars (keep : ascii -> bool) (s : string) : string :=
  match s with
  | EmptyString => EmptyString
  | String c s' =>
      if keep c then String c (keep_chars keep s') else keep_chars keep s'
  end.

Fixpoint any_char (p : ascii -> bool) (s : string) : bool :=
  match s with
  | EmptyString => false
  | String c s' => p c || any_char p s'
  end.

(** A JavaScript string is falsy exactly when it is empty, so
    [a || b] on strings is [b] when [a] is empty. *)
Definition or_else (a b : string) : string :=
  match a with
  | EmptyString => b
  | _ => a
  end.

End JS.

(** ** [types.ts] *)

Record TokenUsage := {
  promptTokens : nat;
  responseTokens : nat;
  totalTokens : nat
}.

Record VocabularyItem := {
  word : string;
  definition : string;
  pronunciation : option string;
  type : option string;
  translation : string;
  context : option string;
  cefr : option string
}.

(** ** [App.tsx]: the saved-words collection *)

Module SavedWords.

(** [w => w.word === word.word] *)
Definition same_word (item w : VocabularyItem) : bool :=
  String.eqb (word w) (word item).

(** [const isSaved = (item) => savedWords.some(w => w.word === item.word)]
    (PracticeView and InteractiveText define it alike). *)
Definition isSaved (savedWords : list VocabularyItem) (item : VocabularyItem) : bool :=
  existsb (same_word item) savedWords.

(** [[setSavedWords(prev => { const exists = prev.some(...);
      if (exists) return prev.filter(w => w.word !== word.word);
      return [...prev, word]; })]] *)
Definition handleToggleSaveWord (prev : list VocabularyItem) (item : VocabularyItem)
  : list VocabularyItem :=
  let exists_ := existsb (same_word item) prev in
  if exists_ then List.filter (fun w => negb (same_word item w)) prev
  else prev ++ [item].

(** [setSavedWords(prev => [word, ...prev])] *)
Definition handleAddManualWord (prev : list VocabularyItem) (item : VocabularyItem)
  : list VocabularyItem :=
  item :: prev.

(** [setSavedWords(prev => prev.filter(w => w.word !== wordStr))] *)
Definition handleRemoveSavedWord (prev : list VocabularyItem) (wordStr : string)
  : list VocabularyItem :=
  List.filter (fun w => negb (String.eqb (word w) wordStr)) prev.

End SavedWords.

(** ** [components/VocabularyView.tsx]: the flashcard review queue *)

Module ReviewQueue.

Inductive Difficulty := HARD | GOOD | EASY.

Inductive Mode := LIST | LEARN.

Record SessionStats := { reviewed : nat; hard : nat }.

(** The component state the queue lives in. *)
Record State := {
  mode : Mode;
  studyQueue : list VocabularyItem;
  currentCardIndex : nat;
  sessionStats : SessionStats
}.

(** [const isFinished = currentCardIndex >= studyQueue.length] *)
Definition isFinished (st : State) : bool :=
  (length (studyQueue st) <=? currentCardIndex st)%nat.

(** [handleGrade].  The three grading buttons are rendered only in the
    else-branch of [isFinished ? ... : ...], so the handler runs with
    [currentCardIndex < studyQueue.length]; outside that range, where
    the source would read [undefined] from the array, the model gives
    [None].

    The updates are applied in the order the source issues them:
    [reviewed + 1] first; for HARD the current card is appended to the
    queue and [hard + 1]; then, for every grade, [index + 1]. *)
Definition handleGrade (difficulty : Difficulty) (st : State) : option State :=
  match studyQueue st !! currentCardIndex st with
  | None => None
  | Some currentCard =>
      let stats1 := {| reviewed := reviewed (sessionStats st) + 1;
                       hard := hard (sessionStats st) |} in
      match difficulty with
      | HARD =>
          Some {| mode := mode st;
                  studyQueue := studyQueue st ++ [currentCard];
                  currentCardIndex := currentCardIndex st + 1;
                  sessionStats := {| reviewed := reviewed stats1;
                                     hard := hard stats1 + 1 |} |}
      | GOOD | EASY =>
          Some {| mode := mode st;
                  studyQueue := studyQueue st;
                  currentCardIndex := currentCardIndex st + 1;
                  sessionStats := stats1 |}
      end
  end.

(** A review session: the learner grades the card on display, one
    grade per rendering.  The run returns the cards served, in order,
    and the state reached; it is [None] when a grade is given although
    no card is on display. *)
Fixpoint session (grades : list Difficulty) (st : State)
  : option (list VocabularyItem * State) :=
  match grades with
  | [] => Some ([], st)
  | g :: gs =>
      match studyQueue st !! currentCardIndex st, handleGrade g st with
      | Some card, Some st' =>
          match session gs st' with
          | Some (served, final) => Some (card :: served, final)
          | None => None
          end
      | _, _ => None
      end
  end.

(** The state [startLearning] installs for a queue [q]:
    [setStudyQueue(q); setCurrentCardIndex(0);
     setSessionStats({ reviewed: 0, hard: 0 }); setMode('LEARN')]. *)
Definition started (q : list VocabularyItem) : State :=
  {| mode := LEARN;
     studyQueue := q;
     currentCardIndex := 0;
     sessionStats := {| reviewed := 0; hard := 0 |} |}.

Definition not_hard (g : Difficulty) : Prop := g = GOOD \/ g = EASY.

(** The state reached from [started q] once [n] cards have been
    graded, [h] of them HARD, the queue having become [queue]. *)
Definition progress (queue : list VocabularyItem) (n h : nat) : State :=
  {| mode := LEARN;
     studyQueue := queue;
     currentCardIndex := n;
     sessionStats := {| reviewed := n; hard := h |} |}.

Definition is_hard (g : Difficulty) : bool :=
  match g with
  | HARD => true
  | GOOD | EASY => false
  end.

(** The number of HARD grades in a run. *)
Definition hard_count (grades : list Difficulty) : nat :=
  length (List.filter is_hard grades).

(** *** The shuffle of [startLearning]

    [[...filteredWords].sort(() => Math.random() - 0.5)] hands the
    host's [Array.prototype.sort] a comparator.  Which pairs the host
    compares, and in which order, is its own business; it learns about
    the elements only through the numbers the comparator returns.  A
    sort of a given array is therefore a finite tree of questions. *)
Inductive Sorting (A : Type) : Type :=
| Sorted (result : list A)
| Compare (a b : A) (next : Q -> Sorting A).
Arguments Sorted {A} result.
Arguments Compare {A} a b next.

Definition Engine : Type := list VocabularyItem -> Sorting VocabularyItem.

(** [() => Math.random() - 0.5]: the comparator takes no parameter, so
    the two elements it is called with are ignored; [random] is the
    value [Math.random()] returns for this call. *)
Definition comparator (random : Q) (a b : VocabularyItem) : Q :=
  (random - (1 # 2))%Q.

(** Running a sort against the successive values of [Math.random()];
    [n] counts the calls already made. *)
Fixpoint run_sort (t : Sorting VocabularyItem) (random : nat -> Q) (n : nat)
  : list VocabularyItem :=
  match t with
  | Sorted result => result
  | Compare a b next => run_sort (next (comparator (random n) a b)) random (S n)
  end.

(** [startLearning]:
    [if (filteredWords.length === 0) return;
     const shuffled = [...filteredWords].sort(() => Math.random() - 0.5);] *)
Definition startLearning (engine : Engine) (random : nat -> Q)
    (filteredWords : list VocabularyItem) (st : State) : State :=
  match filteredWords with
  | [] => st
  | _ :: _ => started (run_sort (engine filteredWords) random 0)
  end.

(** The same run against a finite list of draws: [None] when the sort
    asks for more draws than the list holds. *)
Fixpoint outcome_within (t : Sorting VocabularyItem) (draws : list Q)
  : option (list VocabularyItem) :=
  match t with
  | Sorted result => Some result
  | Compare a b next =>
      match draws with
      | [] => None
      | r :: rs => outcome_within (next (comparator r a b)) rs
      end
  end.

(** [Math.random()] with [bits] bits of resolution returns one of the
    [2^bits] numbers [k / 2^bits], each as likely as the other. *)
Definition grid (bits : nat) : list Q :=
  map (fun k : nat => (Z.of_nat k # Pos.of_nat (2 ^ bits))%Q) (seq 0 (2 ^ bits)).

(** All sequences of [d] draws, equally likely. *)
Fixpoint all_draws (bits d : nat) : list (list Q) :=
  match d with
  | O => [[]]
  | S d' => flat_map (fun r => map (cons r) (all_draws bits d')) (grid bits)
  end.

Definition same_queue (p q : list VocabularyItem) : bool :=
  bool_decide (map word p = map word q).

(** How many of the sequences of [d] draws make the queue come out as
    [p] (compared word by word). *)
Definition ways (engine : Engine) (filteredWords : list VocabularyItem)
    (bits d : nat) (p : list VocabularyItem) : nat :=
  length (List.filter
            (fun draws =>
               match outcome_within (engine filteredWords) draws with
               | Some q => same_queue p q
               | None => false
               end)
            (all_draws bits d)).

(** A host sort for short arrays: insertion sort, each element moved
    left past the elements the comparator reports as larger. *)
Fixpoint insert_sorted (x : VocabularyItem) (left_rev right : list VocabularyItem)
    (k : list VocabularyItem -> Sorting VocabularyItem) : Sorting VocabularyItem :=
  match left_rev with
  | [] => k (x :: right)
  | y :: left_rev' =>
      Compare y x (fun v =>
        if (0 <? Qnum v)%Z
        then insert_sorted x left_rev' (y :: right) k
        else k (rev_append left_rev (x :: right)))
  end.

Fixpoint insertion_from (done todo : list VocabularyItem) : Sorting VocabularyItem :=
  match todo with
  | [] => Sorted done
  | x :: todo' => insert_sorted x (rev done) [] (fun done' => insertion_from done' todo')
  end.

Definition insertion_engine : Engine := insertion_from [].

End ReviewQueue.

(** ** JSON values and object spread *)

Module Json.

(** What [JSON.parse] returns.  An object is a finite map from
    property names to values. *)
Inductive JSON : Type :=
| JNull
| JBool (b : bool)
| JNum (n : Z)
| JStr (s : string)
| JArr (items : list JSON)
| JObj (props : gmap string JSON).

Definition index_key (i : nat) : string := pretty i.

Fixpoint chars_from (i : nat) (s : string) : gmap string JSON :=
  match s with
  | EmptyString => ∅
  | String c s' => <[index_key i := JStr (String c EmptyString)]> (chars_from (S i) s')
  end.

Fixpoint items_from (i : nat) (l : list JSON) : gmap string JSON :=
  match l with
  | [] => ∅
  | x :: l' => <[index_key i := x]> (items_from (S i) l')
  end.

(** [{ ...v }]: the own enumerable properties of [v].  Objects give
    their properties, arrays and strings their indices, and [null],
    booleans and numbers give nothing. *)
Definition spread (v : JSON) : gmap string JSON :=
  match v with
  | JObj props => props
  | JArr items => items_from 0 items
  | JStr s => chars_from 0 s
  | JNull | JBool _ | JNum _ => ∅
  end.

Definition usage_object (u : TokenUsage) : JSON :=
  JObj (<["promptTokens" := JNum (Z.of_nat (promptTokens u))]>
       (<["responseTokens" := JNum (Z.of_nat (responseTokens u))]>
       (<["totalTokens" := JNum (Z.of_nat (totalTokens u))]> ∅))).

End Json.

(** ** [services/aiService.ts] *)

Module AiService.
Import Json.

(** An [async] function settles in one of two ways. *)
Inductive Result (A : Type) : Type :=
| Resolved (value : A)
| Rejected (message : string).
Arguments Resolved {A} value.
Arguments Rejected {A} message.

(** What a call does to the outside world, in order. *)
Inductive Event :=
| Fetch                (* one POST to the chat-completions endpoint *)
| Wait (ms : nat).     (* [await wait(ms)] *)

Definition Run (A : Type) : Type := (list Event * Result A)%type.

(** What happens once [response.ok] holds: [response.json()], the
    path [data.choices[0].message.content], [cleanJsonOutput] and
    [JSON.parse] either throw an error with a message, or give the
    parsed content together with the usage counters. *)
Inductive Body :=
| BodyThrows (message : string)
| BodyParsed (content : JSON) (usage : TokenUsage).

(** What one [fetch] does: it rejects (no connection), or it gives a
    response with a status, a status text, the value of
    [errorData.error?.message] ([None] when it is undefined or the
    error body does not parse), and the body. *)
Inductive FetchOutcome :=
| FetchRejects (message : string)
| FetchResponds (status : nat) (statusText : string)
                (errorMessage : option string) (body : Body).

(** The service as the client sees it: the outcome of the n-th
    request of a call.  Nothing is assumed on how the outcome depends
    on the prompts sent, so the request body is not modelled. *)
Definition Network : Type := nat -> FetchOutcome.

(** [response.ok]: the status is in 200..299. *)
Definition response_ok (status : nat) : bool :=
  (200 <=? status)%nat && (status <=? 299)%nat.

(** [response.status === 429 || response.status >= 500] *)
Definition busy_status (status : nat) : bool :=
  (status =? 429)%nat || (500 <=? status)%nat.

(** [error.message.includes('fetch') || error.message.includes('network')] *)
Definition network_class (message : string) : bool :=
  JS.includes message "fetch" || JS.includes message "network".

Record Reply := { content : JSON; usage : TokenUsage }.

Definition after_wait {A} (ms : nat) (r : Run A) : Run A :=
  (Wait ms :: fst r, snd r).

(** [catch (error) { if (retryCount > 0 && (error.message.includes('fetch')
      || error.message.includes('network'))) { await wait(2000);
      return attempt(retryCount - 1); } throw error; }]
    [retry] is [None] when [retryCount] is 0 and otherwise holds the
    run of [attempt(retryCount - 1)]. *)
Definition catch_error (retry : option (Run Reply)) (message : string) : Run Reply :=
  match retry with
  | Some again =>
      if network_class message
      then after_wait 2000 again
      else ([], Rejected message)
  | None => ([], Rejected message)
  end.

(** The body of [attempt] after [fetch] has settled with [o].  An
    error thrown inside the [try] block, the [throw new Error(...)]
    of the [!response.ok] branch included, is handled by
    [catch_error]; the [return attempt(retryCount - 1)] of the 429/5xx
    branch is not awaited inside the [try], so a failure of the later
    attempt is not caught again here. *)
Definition settle (retry : option (Run Reply)) (o : FetchOutcome) : Run Reply :=
  match o with
  | FetchRejects message => catch_error retry message
  | FetchResponds status statusText errorMessage body =>
      if negb (response_ok status) then
        match busy_status status, retry with
        | true, Some again => after_wait 2000 again
        | _, _ =>
            catch_error retry
              (JS.or_else (default EmptyString errorMessage) ("API Error: " ++ statusText))
        end
      else
        match body with
        | BodyThrows message => catch_error retry message
        | BodyParsed c u => ([], Resolved {| content := c; usage := u |})
        end
  end.

(** [const attempt = async (retryCount) => ...]; [call] counts the
    requests already made. *)
Fixpoint attempt (net : Network) (call : nat) (retryCount : nat) : Run Reply :=
  let retry :=
    match retryCount with
    | O => None
    | S r => Some (attempt net (S call) r)
    end in
  let rest := settle retry (net call) in
  (Fetch :: fst rest, snd rest).

(** The browser's local storage, as far as the service reads it. *)
Record PromptConfig := {
  generate : string;
  analyze : string;
  lookup : string;
  evaluate : string
}.

Inductive StoredPrompts :=
| PromptsParsed (prompts : PromptConfig)
| PromptsMalformed (message : string).   (* [JSON.parse] throws *)

Record Storage := {
  ds_api_key : option string;
  ds_prompts : option StoredPrompts      (* [None]: key absent or empty *)
}.

Definition retries_default : nat := 3.

(** [callDeepSeek(systemContent, userContent, retries = 3)] *)
Definition callDeepSeek (store : Storage) (net : Network) (retries : nat) : Run Reply :=
  match ds_api_key store with
  | None | Some EmptyString =>
      ([], Rejected "Please enter your DeepSeek API Key in Settings.")
  | Some _ =>
      match attempt net 0 retries with
      | (events, Resolved reply) => (events, Resolved reply)
      | (events, Rejected message) =>
          (events,
           Rejected (JS.or_else message
                       "Failed to connect to DeepSeek API. Please try again."))
      end
  end.

(** [getStoredPrompts]: the stored prompts when there are some, and
    [DEFAULT_PROMPTS] otherwise. *)
Definition getStoredPrompts (defaults : PromptConfig) (store : Storage)
  : Result PromptConfig :=
  match ds_prompts store with
  | None => Resolved defaults
  | Some (PromptsParsed p) => Resolved p
  | Some (PromptsMalformed message) => Rejected message
  end.

(** [analyzeCustomText]:
    [return { ...result.content, text: text, usage: result.usage }] *)
Definition analyzeCustomText (defaults : PromptConfig) (store : Storage)
    (net : Network) (text : string) : Run (gmap string JSON) :=
  match getStoredPrompts defaults store with
  | Rejected message => ([], Rejected message)
  | Resolved _ =>
      match callDeepSeek store net retries_default with
      | (events, Rejected message) => (events, Rejected message)
      | (events, Resolved result) =>
          (events,
           Resolved (<["usage" := usage_object (usage result)]>
                    (<["text" := JStr text]> (spread (content result)))))
      end
  end.

(** [lookupWordContext]:
    [return { ...result.content, word, usage: result.usage }] *)
Definition lookupWordContext (defaults : PromptConfig) (store : Storage)
    (net : Network) (word fullContext : string) : Run (gmap string JSON * TokenUsage) :=
  match getStoredPrompts defaults store with
  | Rejected message => ([], Rejected message)
  | Resolved _ =>
      match callDeepSeek store net retries_default with
      | (events, Rejected message) => (events, Rejected message)
      | (events, Resolved result) =>
          (events,
           Resolved (<["usage" := usage_object (usage result)]>
                    (<["word" := JStr word]> (spread (content result))),
                     usage result))
      end
  end.

(** *** The retry policy, read off [attempt] *)

(** The message of the error a settled [fetch] makes the [try] block
    throw, if it throws (a 429/5xx response counts: it throws once
    the retries are used up). *)
Definition failure (o : FetchOutcome) : option string :=
  match o with
  | FetchRejects message => Some message
  | FetchResponds status statusText errorMessage body =>
      if response_ok status then
        match body with
        | BodyThrows message => Some message
        | BodyParsed _ _ => None
        end
      else Some (JS.or_else (default EmptyString errorMessage)
                            ("API Error: " ++ statusText))
  end.

Definition reply_of (o : FetchOutcome) : option Reply :=
  match o with
  | FetchResponds status _ _ (BodyParsed c u) =>
      if response_ok status then Some {| content := c; usage := u |} else None
  | _ => None
  end.

(** A response that is not ok with status 429 or 5xx. *)
Definition busy (o : FetchOutcome) : bool :=
  match o with
  | FetchResponds status _ _ _ =>
      negb (response_ok status) && busy_status status
  | FetchRejects _ => false
  end.

(** An outcome is retried when it is such a response, or when the
    error it throws mentions fetch or network, wherever the error
    comes from. *)
Definition retryable (o : FetchOutcome) : bool :=
  busy o || from_option network_class false (failure o).

(** The outcomes meant to be retried: such a response, or a rejected
    [fetch] whose message mentions fetch or network. *)
Definition transient (o : FetchOutcome) : bool :=
  busy o ||
  match o with
  | FetchRejects message => network_class message
  | FetchResponds _ _ _ _ => false
  end.

(** The failures that end the call at once: neither such a response
    nor an error whose message mentions fetch or network. *)
Definition permanent (o : FetchOutcome) : bool :=
  match failure o with
  | Some message => negb (busy o) && negb (network_class message)
  | None => false
  end.

(** [n] retries: a request, then [n] times a wait of two seconds and
    a request. *)
Fixpoint retry_trace (n : nat) : list Event :=
  match n with
  | O => [Fetch]
  | S n' => Fetch :: Wait 2000 :: retry_trace n'
  end.

(** How a call settles when its last request settles with [o]. *)
Definition settled_with (o : FetchOutcome) : Result Reply :=
  match reply_of o with
  | Some reply => Resolved reply
  | None => Rejected (default EmptyString (failure o))
  end.

Definition final_message (message : string) : string :=
  JS.or_else message "Failed to connect to DeepSeek API. Please try again.".

Definition has_api_key (store : Storage) : bool :=
  match ds_api_key store with
  | None | Some EmptyString => false
  | Some _ => true
  end.

(** *** The helpers around the call *)

(** [s.replace(/^p/, '')] for a literal [p]: [s] without the prefix
    [p], and [s] itself when it does not start with [p]. *)
Fixpoint strip_prefix (p s : string) : option string :=
  match p, s with
  | EmptyString, _ => Some s
  | String a p', String b s' => if Ascii.eqb a b then strip_prefix p' s' else None
  | String _ _, EmptyString => None
  end.

Definition without_prefix (p s : string) : string := default s (strip_prefix p s).

(** [s.replace(/p$/, '')] for a literal [p]: [s] without the suffix
    [p], and [s] itself when it does not end with [p]. *)
Fixpoint strip_suffix (p s : string) : option string :=
  if String.eqb s p then Some EmptyString
  else
    match s with
    | EmptyString => None
    | String c s' => option_map (String c) (strip_suffix p s')
    end.

Definition without_suffix (p s : string) : string := default s (strip_suffix p s).

(** [cleanJsonOutput]: the markdown code fence around the answer, if
    there is one, is removed. *)
Definition cleanJsonOutput (text : string) : string :=
  let clean := JS.trim text in
  let clean :=
    if JS.startsWith "```json" clean
    then without_suffix "```" (without_prefix "```json" clean)
    else if JS.startsWith "```" clean
         then without_suffix "```" (without_prefix "```" clean)
         else clean in
  JS.trim clean.

(** The context sent with a lookup:
    [fullContext.length > 500 ? fullContext.substring(0, 500) + "..." : fullContext] *)
Definition contextSnippet (fullContext : string) : string :=
  if (500 <? String.length fullContext)%nat
  then JS.substring0 500 fullContext ++ "..."
  else fullContext.

Arguments response_ok : simpl never.
Arguments busy_status : simpl never.
Arguments network_class : simpl never.

End AiService.

(** ** [components/InteractiveText.tsx] *)

Module InteractiveText.
Import Json AiService.

(** *** The vocabulary index

    [vocabulary.forEach(item => { map.set(item.word.toLowerCase(), item); })] *)
Definition vocabMap (vocabulary : list VocabularyItem) : gmap string VocabularyItem :=
  fold_left (fun m item => <[JS.toLowerCase (word item) := item]> m) vocabulary ∅.

(** [vocabMap.has(key)] *)
Definition has (m : gmap string VocabularyItem) (key : string) : bool :=
  bool_decide (is_Some (m !! key)).

(** *** Sentences *)

(** The class [[.!?]]. *)
Definition is_terminator (c : ascii) : bool :=
  (JS.code c =? 46)%nat || (JS.code c =? 33)%nat || (JS.code c =? 63)%nat.

Definition snoc (s : string) (c : ascii) : string := s ++ String c EmptyString.

(** [fullText.match(/[^.!?]+[.!?]+/g)], scanning left to right.  A
    match is a longest run of non-terminators ([body], not empty)
    followed by the longest run of terminators ([term], not empty).
    Terminators met while [body] is empty start no match and are
    skipped; a run of non-terminators that reaches the end of the text
    without a terminator gives no match either. *)
Fixpoint sentence_matches (body term : string) (s : string) : list string :=
  match s with
  | EmptyString =>
      match term with
      | EmptyString => []
      | _ => [body ++ term]
      end
  | String c s' =>
      if is_terminator c then
        match body with
        | EmptyString => sentence_matches EmptyString EmptyString s'
        | _ => sentence_matches body (snoc term c) s'
        end
      else
        match term with
        | EmptyString => sentence_matches (snoc body c) EmptyString s'
        | _ => (body ++ term) :: sentence_matches (String c EmptyString) EmptyString s'
        end
  end.

(** [fullText.match(...) || [fullText]]: [match] gives [null] when
    nothing matches. *)
Definition sentences (fullText : string) : list string :=
  match sentence_matches EmptyString EmptyString fullText with
  | [] => [fullText]
  | found => found
  end.

(** [for (const sentence of sentences)
       if (sentence.toLowerCase().includes(targetWord.toLowerCase()))
         return sentence.trim();
     return ...;] with the empty string returned at the end. *)
Fixpoint first_containing (targetWord : string) (candidates : list string) : string :=
  match candidates with
  | [] => EmptyString
  | sentence :: others =>
      if JS.includes (JS.toLowerCase sentence) (JS.toLowerCase targetWord)
      then JS.trim sentence
      else first_containing targetWord others
  end.

Definition findSentence (fullText targetWord : string) : string :=
  first_containing targetWord (sentences fullText).

(** *** The lookup dispatcher *)

(** What the popover shows: a vocabulary item, or the object the
    service returned for a word. *)
Inductive Shown :=
| ShownItem (item : VocabularyItem)
| ShownObject (props : gmap string JSON).

Record Popover := {
  selectedWord : option Shown;
  loadingWord : option string
}.

(** The class of [cleanText]: full stop, comma, exclamation mark,
    question mark, semicolon, colon, double quote and the two
    parentheses. *)
Definition is_stripped (c : ascii) : bool :=
  existsb (fun n => (JS.code c =? n)%nat) [46; 44; 33; 63; 59; 58; 34; 40; 41].

(** [clickedText.trim().replace(/[...]+/g, '').toLowerCase()], the
    class being the one above. *)
Definition cleanText (clickedText : string) : string :=
  JS.toLowerCase (JS.keep_chars (fun c => negb (is_stripped c)) (JS.trim clickedText)).

(** [cached.context || currentContext] *)
Definition context_or (cached : option string) (currentContext : string) : string :=
  JS.or_else (default EmptyString cached) currentContext.

Definition with_context (item : VocabularyItem) (ctx : string) : VocabularyItem :=
  {| word := word item;
     definition := definition item;
     pronunciation := pronunciation item;
     type := type item;
     translation := translation item;
     context := Some ctx;
     cefr := cefr item |}.

(** The object literal of the [catch] block (the translation is the
    Vietnamese word for error, kept as its UTF-8 bytes). *)
Definition fallback (clickedText currentContext : string) : VocabularyItem :=
  {| word := clickedText;
     definition := "Unable to translate. Check connection.";
     pronunciation := None;
     type := Some "Unknown";
     translation := "Lỗi";
     context := Some currentContext;
     cefr := None |}.

(** [handleWordClick].  The result is how the [async] handler
    settles, with the popover state it leaves and the usage it
    reports through [onTokenUsage] ([reportsUsage] tells whether the
    parent passed that callback).  [before] is the popover state when
    the click arrives.  The lookup is awaited inside
    [try { ... } catch (err) { ... } finally { setLoadingWord(null) }]. *)
Definition handleWordClick (defaults : PromptConfig) (store : Storage) (net : Network)
    (reportsUsage : bool) (vocabulary : list VocabularyItem) (text : string)
    (before : Popover) (clickedText : string)
  : Result (Popover * option TokenUsage) :=
  let clean := cleanText clickedText in
  let currentContext := findSentence text clickedText in
  match vocabMap vocabulary !! clean with
  | Some cached =>
      Resolved
        ({| selectedWord :=
              Some (ShownItem (with_context cached (context_or (context cached) currentContext)));
            loadingWord := loadingWord before |}, None)
  | None =>
      (* setLoadingWord(clickedText); setSelectedWord(null); *)
      let loading := {| selectedWord := None; loadingWord := Some clickedText |} in
      let after_try :=
        match snd (lookupWordContext defaults store net clickedText text) with
        | Resolved (result, used) =>
            ({| selectedWord := Some (ShownObject (<["context" := JStr currentContext]> result));
                loadingWord := loadingWord loading |},
             if reportsUsage then Some used else None)
        | Rejected _ =>
            ({| selectedWord := Some (ShownItem (fallback clickedText currentContext));
                loadingWord := loadingWord loading |}, None)
        end in
      (* finally { setLoadingWord(null); } *)
      Resolved ({| selectedWord := selectedWord (fst after_try); loadingWord := None |},
                snd after_try)
  end.

(** *** The tokenizer and annotator *)

(** The class [[a-zA-ZÀ-ÿ0-9'-]] of the splitting expression. *)
Definition is_word_char (c : ascii) : bool :=
  JS.between 97 122 c || JS.between 65 90 c || JS.between 192 255 c
  || JS.between 48 57 c || (JS.code c =? 39)%nat || (JS.code c =? 45)%nat.

(** The class [[a-zA-Z0-9]]. *)
Definition is_alnum (c : ascii) : bool :=
  JS.between 97 122 c || JS.between 65 90 c || JS.between 48 57 c.

(** [segment.split(/([a-zA-ZÀ-ÿ0-9'-]+)/g)]: the runs of word
    characters (kept, because of the capture group) alternate with
    the text between them; the list starts and ends with a text
    between, which is empty when the segment starts or ends with a
    word.  [cur] is the run being read, [inWord] its kind. *)
Fixpoint split_runs (inWord : bool) (cur : string) (s : string) : list string :=
  match s with
  | EmptyString => if inWord then [cur; EmptyString] else [cur]
  | String c s' =>
      if Bool.eqb (is_word_char c) inWord
      then split_runs inWord (snoc cur c) s'
      else cur :: split_runs (is_word_char c) (String c EmptyString) s'
  end.

Definition tokens_of (segment : string) : list string :=
  split_runs false EmptyString segment.

(** [!token.trim()] *)
Definition blank (token : string) : bool :=
  match JS.trim token with
  | EmptyString => true
  | _ => false
  end.

(** [/[a-zA-Z0-9]/.test(token)] *)
Definition has_alnum (token : string) : bool := JS.any_char is_alnum token.

(** The inner [while] of the phrase detection: the next word tokens,
    [need] of them at most, skipping the tokens in between. *)
Fixpoint collect (need : nat) (following : list string) : list string :=
  match need, following with
  | O, _ => []
  | _, [] => []
  | S n, nextTok :: others =>
      if has_alnum nextTok then nextTok :: collect n others
      else collect need others
  end.

(** [phraseParts.join(" ").toLowerCase()] for the window [len]. *)
Definition phraseStr (len : nat) (token : string) (following : list string) : string :=
  JS.toLowerCase (JS.join " " (token :: collect (len - 1) following)).

(** The [while (wordsFound < len && tempIdx < tokens.length)] loop:
    the display text and the number of tokens it is made of. *)
Fixpoint display (need : nat) (toks : list string) : string * nat :=
  match need, toks with
  | O, _ => (EmptyString, O)
  | _, [] => (EmptyString, O)
  | S n, t :: others =>
      let rest := display (if has_alnum t then n else need) others in
      (t ++ fst rest, S (snd rest))
  end.

(** [for (let len = 4; len >= 2; len--)]: the first window, longest
    first, whose string is in the index. *)
Definition find_phrase (m : gmap string VocabularyItem)
    (token : string) (following : list string) : option nat :=
  if has m (phraseStr 4 token following) then Some 4
  else if has m (phraseStr 3 token following) then Some 3
  else if has m (phraseStr 2 token following) then Some 2
  else None.

(** What [renderTextSegment] pushes; [key] is the index of the token
    the element starts at. *)
Inductive Element :=
| Spacer (key : nat) (token : string)
| Punct (key : nat) (token : string)
| Phrase (key : nat) (phrase : string) (displayStr : string)
| Word (key : nat) (token : string) (isVocab : bool).

(** The [for] loop over the tokens.  [i] is the index of the head of
    [toks]; [skip] is the number of tokens still covered by the phrase
    emitted last (the loop's [i = tempIdx - 1]). *)
Fixpoint render (m : gmap string VocabularyItem) (i skip : nat) (toks : list string)
  : list Element :=
  match toks with
  | [] => []
  | token :: following =>
      match skip with
      | S k => render m (S i) k following
      | O =>
          if blank token then Spacer i token :: render m (S i) 0 following
          else if negb (has_alnum token) then Punct i token :: render m (S i) 0 following
          else
            match find_phrase m token following with
            | Some len =>
                let shown := display len toks in
                Phrase i (phraseStr len token following) (fst shown)
                  :: render m (S i) (snd shown - 1) following
            | None =>
                Word i token (has m (JS.toLowerCase token))
                  :: render m (S i) 0 following
            end
      end
  end.

Definition renderTextSegment (vocabulary : list VocabularyItem) (segment : string)
  : list Element :=
  render (vocabMap vocabulary) 0 0 (tokens_of segment).

(** *** Segments *)

Inductive ViewMode := PARAGRAPH | SENTENCE.

(** [text.split('\n')] *)
Fixpoint split_lines (cur : string) (s : string) : list string :=
  match s with
  | EmptyString => [cur]
  | String c s' =>
      if (JS.code c =? 10)%nat then cur :: split_lines EmptyString s'
      else split_lines (snoc cur c) s'
  end.

(** [text.match(/[^.!?]+[.!?]+(\s|$)|[^.!?]+$/g)].  After a run of
    non-terminators and a run of terminators the match needs a white
    space (taken into the match) or the end of the text; when another
    character follows, no match starts anywhere in the two runs.  A
    run of non-terminators that reaches the end of the text is a
    match by the second alternative. *)
Fixpoint sentence_segments (body term : string) (s : string) : list string :=
  match s with
  | EmptyString =>
      match body with
      | EmptyString => []
      | _ => [body ++ term]
      end
  | String c s' =>
      if is_terminator c then
        match body with
        | EmptyString => sentence_segments EmptyString EmptyString s'
        | _ => sentence_segments body (snoc term c) s'
        end
      else
        match term with
        | EmptyString => sentence_segments (snoc body c) EmptyString s'
        | _ =>
            if JS.is_space c
            then (body ++ snoc term c) :: sentence_segments EmptyString EmptyString s'
            else sentence_segments (String c EmptyString) EmptyString s'
        end
  end.

Definition segments (viewMode : ViewMode) (text : string) : list string :=
  match viewMode with
  | SENTENCE =>
      match sentence_segments EmptyString EmptyString text with
      | [] => [text]
      | found => found
      end
  | PARAGRAPH => split_lines EmptyString text
  end.


(** *** What the elements show *)

(** The text an element puts on the page. *)
Definition shown (e : Element) : string :=
  match e with
  | Spacer _ token => token
  | Punct _ token => token
  | Phrase _ _ displayStr => displayStr
  | Word _ token _ => token
  end.

Definition key_of (e : Element) : nat :=
  match e with
  | Spacer key _ => key
  | Punct key _ => key
  | Phrase key _ _ => key
  | Word key _ _ => key
  end.

(** The text a click on an element hands to [handleWordClick]: the
    token for a word, [phraseStr] for a phrase; the other elements
    have no [onClick]. *)
Definition clicked (e : Element) : option string :=
  match e with
  | Spacer _ _ => None
  | Punct _ _ => None
  | Phrase _ phrase _ => Some phrase
  | Word _ token _ => Some token
  end.

(** Whether an element is highlighted as vocabulary. *)
Definition highlighted (e : Element) : bool :=
  match e with
  | Spacer _ _ => false
  | Punct _ _ => false
  | Phrase _ _ _ => true
  | Word _ _ isVocab => isVocab
  end.

(** The strings of a list put one after the other. *)
Fixpoint glue (parts : list string) : string :=
  match parts with
  | [] => EmptyString
  | p :: ps => p ++ glue ps
  end.

(** Every character of [s] passes [p]. *)
Fixpoint all_chars (p : ascii -> bool) (s : string) : bool :=
  match s with
  | EmptyString => true
  | String c s' => p c && all_chars p s'
  end.

(** A run of word characters, not empty. *)
Definition word_run (s : string) : bool :=
  match s with
  | EmptyString => false
  | String _ _ => all_chars is_word_char s
  end.

(** A run without any word character. *)
Definition gap_run (s : string) : bool :=
  all_chars (fun c => negb (is_word_char c)) s.

(** The tokens alternate, starting with a gap when [inWord] is false. *)
Fixpoint alternates (inWord : bool) (toks : list string) : bool :=
  match toks with
  | [] => true
  | t :: ts => (if inWord then word_run t else gap_run t) && alternates (negb inWord) ts
  end.

(** The last character of [s] is not white space. *)
Fixpoint ends_solid (s : string) : bool :=
  match s with
  | EmptyString => false
  | String c EmptyString => negb (JS.is_space c)
  | String _ s' => ends_solid s'
  end.

Definition starts_solid (s : string) : bool :=
  match s with
  | EmptyString => false
  | String c _ => negb (JS.is_space c)
  end.

(** A word character or the space that [phraseStr] joins with. *)
Definition phrase_char (c : ascii) : bool :=
  is_word_char c || (JS.code c =? 32)%nat.

End InteractiveText.

(** ** [components/VocabularyView.tsx]: the deck list *)

Module VocabularyList.

Inductive FilterType := ALL | BASIC | INTER | ADV.

(** [levels.includes(w.cefr || '')] *)
Definition in_levels (levels : list string) (w : VocabularyItem) : bool :=
  existsb (String.eqb (default EmptyString (cefr w))) levels.

Definition is_basic : VocabularyItem -> bool := in_levels ["A1"; "A2"].
Definition is_inter : VocabularyItem -> bool := in_levels ["B1"; "B2"].
Definition is_adv : VocabularyItem -> bool := in_levels ["C1"; "C2"].

Record Stats := { total : nat; basic : nat; inter : nat; adv : nat }.

(** [const stats = useMemo(() => ({ total: savedWords.length,
      basic: savedWords.filter(...).length, ... }))] *)
Definition stats (savedWords : list VocabularyItem) : Stats :=
  {| total := length savedWords;
     basic := length (List.filter is_basic savedWords);
     inter := length (List.filter is_inter savedWords);
     adv := length (List.filter is_adv savedWords) |}.

(** [w.word.toLowerCase().includes(searchTerm.toLowerCase())
     || w.translation.toLowerCase().includes(searchTerm.toLowerCase())] *)
Definition matches_search (searchTerm : string) (w : VocabularyItem) : bool :=
  JS.includes (JS.toLowerCase (word w)) (JS.toLowerCase searchTerm)
  || JS.includes (JS.toLowerCase (translation w)) (JS.toLowerCase searchTerm).

(** [filteredWords]: the level filter first, then the search when the
    search term is not empty. *)
Definition filteredWords (savedWords : list VocabularyItem) (filter : FilterType)
    (searchTerm : string) : list VocabularyItem :=
  let result := savedWords in
  let result := match filter with BASIC => List.filter is_basic result | _ => result end in
  let result := match filter with INTER => List.filter is_inter result | _ => result end in
  let result := match filter with ADV => List.filter is_adv result | _ => result end in
  match searchTerm with
  | EmptyString => result
  | _ => List.filter (matches_search searchTerm) result
  end.

(** The level test a filter stands for. *)
Definition passes (filter : FilterType) (w : VocabularyItem) : bool :=
  match filter with
  | ALL => true
  | BASIC => is_basic w
  | INTER => is_inter w
  | ADV => is_adv w
  end.

End VocabularyList.

(** ** [App.tsx], [PracticeView.tsx], [SetupView.tsx]: sessions and
       their token counters *)

Module Sessions.

Record EvaluationResult := {
  score : option nat;
  feedback : option string;
  correctedTranslation : string;
  keyImprovements : list string;
  difficultWords : list VocabularyItem;
  usage : option TokenUsage
}.

Record PracticeSession := {
  id : string;
  title : string;
  text : string;
  vocabulary : list VocabularyItem;
  date : nat;
  initialUsage : TokenUsage;
  lookupUsage : TokenUsage;
  evaluationUsage : option TokenUsage;
  userTranslation : option string;
  evaluation : option EvaluationResult
}.

Definition no_usage : TokenUsage :=
  {| promptTokens := 0; responseTokens := 0; totalTokens := 0 |}.

(** [startSession]; [idNow] and [dateNow] are what the two calls of
    [Date.now()] return, [id: Date.now().toString()] and
    [date: Date.now()]. *)
Definition startSession (idNow dateNow : nat) (title text : string)
    (vocabulary : list VocabularyItem) (usage : TokenUsage) : PracticeSession :=
  {| id := pretty idNow;
     title := title;
     text := text;
     vocabulary := vocabulary;
     date := dateNow;
     initialUsage := usage;
     lookupUsage := no_usage;
     evaluationUsage := None;
     userTranslation := None;
     evaluation := None |}.

(** [setHistory(prev => [finishedSession, ...prev])] *)
Definition handleFinishSession (prev : list PracticeSession) (finishedSession : PracticeSession)
  : list PracticeSession :=
  finishedSession :: prev.

(** [if (window.confirm(...)) setHistory(prev => prev.filter(s => s.id !== sessionId))];
    [confirmed] is the answer to the dialog. *)
Definition handleDeleteSession (confirmed : bool) (prev : list PracticeSession)
    (sessionId : string) : list PracticeSession :=
  if confirmed then List.filter (fun s => negb (String.eqb (id s) sessionId)) prev
  else prev.

(** [handleTokenUpdate] of the practice view. *)
Definition handleTokenUpdate (prev newUsage : TokenUsage) : TokenUsage :=
  {| promptTokens := promptTokens prev + promptTokens newUsage;
     responseTokens := responseTokens prev + responseTokens newUsage;
     totalTokens := totalTokens prev + totalTokens newUsage |}.

Record TokenStats := { prompt : nat; response : nat; total : nat }.

(** The body of [history.forEach] in [tokenStats]. *)
Definition add_session (acc : nat * nat) (session : PracticeSession) : nat * nat :=
  let '(prompt, response) := acc in
  let prompt := prompt + promptTokens (initialUsage session) in
  let response := response + responseTokens (initialUsage session) in
  let prompt := prompt + promptTokens (lookupUsage session) in
  let response := response + responseTokens (lookupUsage session) in
  let prompt := prompt + from_option promptTokens 0 (evaluationUsage session) in
  let response := response + from_option responseTokens 0 (evaluationUsage session) in
  (prompt, response).

(** [tokenStats] of the setup view.  The three usages are read as
    [PracticeSession] declares them: [initialUsage] and [lookupUsage]
    are there, [evaluationUsage] may be missing and then counts 0. *)
Definition tokenStats (history : list PracticeSession) : TokenStats :=
  let '(prompt, response) := fold_left add_session history (0, 0) in
  {| prompt := prompt; response := response; total := prompt + response |}.

(** What one session adds to the two counters. *)
Definition session_prompt (s : PracticeSession) : nat :=
  promptTokens (initialUsage s) + promptTokens (lookupUsage s)
  + from_option promptTokens 0 (evaluationUsage s).

Definition session_response (s : PracticeSession) : nat :=
  responseTokens (initialUsage s) + responseTokens (lookupUsage s)
  + from_option responseTokens 0 (evaluationUsage s).

End Sessions.

(** ** The sentence context as the specification words it *)

Module SentenceSpec.
Import InteractiveText.

(** The text split on the sentence terminators, each piece keeping
    the terminators that end it; what follows the last terminator is
    the last piece. *)
Fixpoint split_sentences (cur : string) (closing : bool) (s : string) : list string :=
  match s with
  | EmptyString =>
      match cur with
      | EmptyString => []
      | _ => [cur]
      end
  | String c s' =>
      if is_terminator c then split_sentences (snoc cur c) true s'
      else if closing then cur :: split_sentences (String c EmptyString) false s'
      else split_sentences (snoc cur c) false s'
  end.

Definition sentences (fullText : string) : list string :=
  split_sentences EmptyString false fullText.

(** The first sentence that contains the token, compared without
    regard to case, with the white space around it removed; the
    empty string when there is none. *)
Fixpoint first_with (token : string) (candidates : list string) : string :=
  match candidates with
  | [] => EmptyString
  | sentence :: others =>
      if JS.includes (JS.toLowerCase sentence) (JS.toLowerCase token)
      then JS.trim sentence
      else first_with token others
  end.

Definition context_of (fullText token : string) : string :=
  first_with token (sentences fullText).

(** Shapes of a text: whether it starts with a terminator, whether
    its last character is one ([otherwise] answers for the empty
    text), whether it has one at all. *)
Definition starts_with_terminator (s : string) : bool :=
  match s with
  | EmptyString => false
  | String c _ => is_terminator c
  end.

Fixpoint ends_with_terminator (otherwise : bool) (s : string) : bool :=
  match s with
  | EmptyString => otherwise
  | String c s' => ends_with_terminator (is_terminator c) s'
  end.

Definition has_terminator (s : string) : bool := JS.any_char is_terminator s.

Definition nonempty (s : string) : bool :=
  match s with
  | EmptyString => false
  | String _ _ => true
  end.

End SentenceSpec.

(** ** Sample data *)

Module Examples.

Definition entry (w : string) : VocabularyItem :=
  {| word := w;
     definition := "definition of " ++ w;
     pronunciation := None;
     type := None;
     translation := "translation of " ++ w;
     context := None;
     cefr := None |}.

Definition cat : VocabularyItem := entry "cat".
Definition Cat : VocabularyItem := entry "Cat".
Definition dog : VocabularyItem := entry "dog".
Definition owl : VocabularyItem := entry "owl".

(** The service answers every request with status 400 and an error
    message that mentions the network. *)
Definition bad_request : AiService.Network :=
  fun _ => AiService.FetchResponds 400 "Bad Request"
             (Some "network policy violation")
             (AiService.BodyThrows EmptyString).

(** The service refuses the key. *)
Definition unauthorized : AiService.Network :=
  fun _ => AiService.FetchResponds 401 "Unauthorized"
             (Some "Authentication Fails")
             (AiService.BodyThrows EmptyString).

(** The service is overloaded once and then answers. *)
Definition busy_once : AiService.Network :=
  fun call =>
    match call with
    | O => AiService.FetchResponds 503 "Service Unavailable" None
             (AiService.BodyThrows EmptyString)
    | S _ => AiService.FetchResponds 200 "OK" None
               (AiService.BodyParsed (Json.JObj ∅)
                  {| promptTokens := 1; responseTokens := 1; totalTokens := 2 |})
    end.

(** No connection: every [fetch] rejects. *)
Definition offline : AiService.Network :=
  fun _ => AiService.FetchRejects "Failed to fetch".

(** The service answers the first request with a JSON object whose
    [text] differs from the text sent. *)
Definition tampering : AiService.Network :=
  fun _ => AiService.FetchResponds 200 "OK" None
             (AiService.BodyParsed
                (Json.JObj (<["title" := Json.JStr "A title"]>
                           (<["text" := Json.JStr "Another text."]> ∅)))
                {| promptTokens := 10; responseTokens := 20; totalTokens := 30 |}).

(** What a call resolves with when the service behaves so. *)
Definition tampered_reply : AiService.Reply :=
  {| AiService.content :=
       Json.JObj (<["title" := Json.JStr "A title"]>
                 (<["text" := Json.JStr "Another text."]> ∅));
     AiService.usage :=
       {| promptTokens := 10; responseTokens := 20; totalTokens := 30 |} |}.

Definition with_key : AiService.Storage :=
  {| AiService.ds_api_key := Some "sk-test"; AiService.ds_prompts := None |}.

Definition prompts : AiService.PromptConfig :=
  {| AiService.generate := "Write";
     AiService.analyze := "Analyze";
     AiService.lookup := "Define";
     AiService.evaluate := "Evaluate" |}.

End Examples.

(** * Theorems *)

Local Open Scope list_scope.

(** ** The saved-words collection *)

Section SavedWordsFacts.
Import SavedWords.

Lemma same_word_true item w : same_word item w = true <-> word w = word item.
Proof. unfold same_word. apply String.eqb_eq. Qed.

Lemma same_word_false item w : same_word item w = false <-> word w <> word item.
Proof. unfold same_word. apply String.eqb_neq. Qed.

Lemma isSaved_spec savedWords item :
  isSaved savedWords item = true <-> exists w, w ∈ savedWords /\ word w = word item.
Proof.
  unfold isSaved. rewrite existsb_exists. split.
  - intros (w & Hin & Hw). exists w. split.
    + by apply list_elem_of_In.
    + by apply same_word_true.
  - intros (w & Hin & Hw). exists w. split.
    + by apply list_elem_of_In.
    + by apply same_word_true.
Qed.



Lemma elem_of_filter_bool {A} (f : A -> bool) (l : list A) x :
  x ∈ List.filter f l <-> x ∈ l /\ f x = true.
Proof. rewrite !list_elem_of_In. apply filter_In. Qed.

(** C7, as stated, fails: the three operations compare the [word]
    strings exactly.  With "cat" saved, toggling "Cat" appends a
    second entry instead of removing the first, "Cat" is not reported
    as saved, and removing "Cat" removes nothing. *)
Lemma saved_words_are_case_sensitive :
  JS.toLowerCase (word Examples.Cat) = JS.toLowerCase (word Examples.cat)
  /\ handleToggleSaveWord [Examples.cat] Examples.Cat = [Examples.cat; Examples.Cat]
  /\ isSaved [Examples.cat] Examples.Cat = false
  /\ handleRemoveSavedWord [Examples.cat] "Cat" = [Examples.cat]
  /\ ~ (forall savedWords item,
          (exists w, w ∈ savedWords
                     /\ JS.toLowerCase (word w) = JS.toLowerCase (word item)) ->
          isSaved savedWords item = true).
Proof.
  repeat split. intros Hclaim.
  assert (isSaved [Examples.cat] Examples.Cat = true) as Hsaved; [|discriminate].
  apply Hclaim. exists Examples.cat. split; [|reflexivity].
  by apply list_elem_of_singleton.
Qed.

(** C7, amended: every operation on the saved-words collection
    identifies an item by its [word] string compared exactly.  An
    item counts as saved iff some entry has the same [word]; toggling
    an item that is saved keeps exactly the entries with another
    [word], in their order, and toggling one that is not saved
    appends it; removing a word keeps exactly the entries with
    another [word]. *)
Theorem saved_words_identity_is_exact_word :
  forall (savedWords : list VocabularyItem) (item : VocabularyItem) (wordStr : string),
    (isSaved savedWords item = true <->
       exists w, w ∈ savedWords /\ word w = word item)
    /\ (isSaved savedWords item = true ->
          forall w, w ∈ handleToggleSaveWord savedWords item <->
                    w ∈ savedWords /\ word w <> word item)
    /\ (isSaved savedWords item = false ->
          handleToggleSaveWord savedWords item = savedWords ++ [item])
    /\ (forall w, w ∈ handleRemoveSavedWord savedWords wordStr <->
                  w ∈ savedWords /\ word w <> wordStr).
Proof.
  intros savedWords item wordStr. split; [apply isSaved_spec|].
  split; [|split].
  - intros Hsaved w. unfold handleToggleSaveWord, isSaved in *. rewrite Hsaved.
    rewrite elem_of_filter_bool, negb_true_iff, same_word_false. done.
  - intros Hnot. unfold handleToggleSaveWord, isSaved in *. by rewrite Hnot.
  - intros w. unfold handleRemoveSavedWord.
    rewrite elem_of_filter_bool, negb_true_iff, String.eqb_neq. done.
Qed.



End SavedWordsFacts.

(** ** The flashcard review queue *)

Section ReviewQueueFacts.
Import ReviewQueue.

Lemma started_progress q : started q = progress q 0 0.
Proof. reflexivity. Qed.

Lemma handleGrade_not_hard g queue n h card :
  not_hard g -> queue !! n = Some card ->
  handleGrade g (progress queue n h) = Some (progress queue (n + 1) h).
Proof.
  intros Hg Hcard. unfold handleGrade. simpl. rewrite Hcard.
  destruct Hg as [-> | ->]; reflexivity.
Qed.

Lemma handleGrade_hard queue n h card :
  queue !! n = Some card ->
  handleGrade HARD (progress queue n h) = Some (progress (queue ++ [card]) (n + 1) (h + 1)).
Proof. intros Hcard. unfold handleGrade. simpl. by rewrite Hcard. Qed.

(** Grading without HARD walks along the queue, which stays as it is. *)
Lemma session_not_hard grades :
  forall queue n h,
    Forall not_hard grades ->
    n + length grades <= length queue ->
    session grades (progress queue n h)
    = Some (take (length grades) (drop n queue),
            progress queue (n + length grades) h).
Proof.
  induction grades as [|g gs IH]; intros queue n h Hall Hlen; simpl.
  - rewrite Nat.add_0_r. reflexivity.
  - apply Forall_cons in Hall as [Hg Hgs]. simpl in Hlen.
    destruct (lookup_lt_is_Some_2 queue n) as [card Hcard]; [lia|].
    rewrite Hcard, (handleGrade_not_hard g queue n h card) by done.
    rewrite IH by (done || lia).
    rewrite (drop_S queue card n) by done. simpl.
    replace (n + 1) with (S n) by lia.
    replace (S n + length gs) with (n + S (length gs)) by lia.
    reflexivity.
Qed.

Lemma progress_finished queue n h :
  isFinished (progress queue n h) = true <-> length queue <= n.
Proof. unfold isFinished. simpl. apply Nat.leb_le. Qed.

Lemma progress_unfinished queue n h :
  isFinished (progress queue n h) = false <-> n < length queue.
Proof. unfold isFinished. simpl. apply Nat.leb_gt. Qed.

(** C3: from the state [startLearning] installs for a non-empty
    queue of N cards, N grades that are all GOOD or EASY serve the N
    cards in order, leave the queue as it was (length N), end with
    [reviewed = N], [hard = 0] and index N, which is the finished
    state; and after fewer than N grades the session is not finished. *)
Theorem all_good_or_easy_finishes_in_N_steps :
  forall (queue : list VocabularyItem) (grades : list Difficulty),
    queue <> [] ->
    length grades = length queue ->
    Forall not_hard grades ->
    let N := length queue in
    let final := {| mode := LEARN;
                    studyQueue := queue;
                    currentCardIndex := N;
                    sessionStats := {| reviewed := N; hard := 0 |} |} in
    session grades (started queue) = Some (queue, final)
    /\ length (studyQueue final) = N
    /\ isFinished final = true
    /\ forall k, k < N ->
         exists served st,
           session (take k grades) (started queue) = Some (served, st)
           /\ reviewed (sessionStats st) = k
           /\ isFinished st = false.
Proof.
  intros queue grades Hne Hlen Hall N final.
  split; [|split; [|split]].
  - rewrite started_progress, session_not_hard by (done || lia).
    rewrite Hlen, drop_0, firstn_all. reflexivity.
  - reflexivity.
  - apply (progress_finished queue N 0). lia.
  - intros k Hk. eexists _, _. split; [|split].
    + rewrite started_progress. apply session_not_hard.
      * by apply Forall_take.
      * rewrite length_take. lia.
    + simpl. rewrite length_take. lia.
    + apply progress_unfinished. rewrite length_take. lia.
Qed.

Lemma all_good_or_easy_finishes_in_N_steps_witness :
  session [GOOD; EASY] (started [Examples.cat; Examples.dog])
  = Some ([Examples.cat; Examples.dog],
          {| mode := LEARN;
             studyQueue := [Examples.cat; Examples.dog];
             currentCardIndex := 2;
             sessionStats := {| reviewed := 2; hard := 0 |} |}).
Proof.
  refine (proj1 (all_good_or_easy_finishes_in_N_steps
                   [Examples.cat; Examples.dog] [GOOD; EASY] _ _ _)).
  - discriminate.
  - reflexivity.
  - apply Forall_cons. split; [by left|].
    apply Forall_cons. split; [by right|]. apply Forall_nil_2.
Defined.

(** C4: from the state [startLearning] installs for a non-empty
    queue of N cards, grading the first card HARD and then giving N
    GOOD grades serves the N cards and then the first card again,
    ends with [reviewed = N + 1], [hard = 1], the first card appended
    once at the end of the queue, and index N + 1, which is the
    finished state; no shorter run of these grades is finished.  The
    first card is served at steps 0 and N, and, the cards of the
    queue being distinct, at no other step. *)
Theorem hard_first_then_good_requeues_once :
  forall (first : VocabularyItem) (others : list VocabularyItem),
    let queue := first :: others in
    let N := length queue in
    let grades := HARD :: replicate N GOOD in
    let final := {| mode := LEARN;
                    studyQueue := queue ++ [first];
                    currentCardIndex := N + 1;
                    sessionStats := {| reviewed := N + 1; hard := 1 |} |} in
    session grades (started queue) = Some (queue ++ [first], final)
    /\ isFinished final = true
    /\ (forall k, k < N + 1 ->
          exists served st,
            session (take k grades) (started queue) = Some (served, st)
            /\ isFinished st = false)
    /\ (NoDup queue ->
          forall k, (queue ++ [first]) !! k = Some first <-> k = 0 \/ k = N).
Proof.
  intros first others. cbv zeta.
  set (queue := first :: others).
  assert (HN : length queue = S (length others)) by reflexivity.
  assert (Hstep : handleGrade HARD (started queue)
                  = Some (progress (queue ++ [first]) 1 1)).
  { rewrite started_progress. by apply handleGrade_hard. }
  assert (Hgood : forall n, n <= length queue ->
            session (replicate n GOOD) (progress (queue ++ [first]) 1 1)
            = Some (take n (others ++ [first]),
                    progress (queue ++ [first]) (1 + n) 1)).
  { intros n Hn.
    rewrite session_not_hard.
    - rewrite length_replicate. reflexivity.
    - apply Forall_replicate. by left.
    - rewrite length_replicate, length_app. simpl. lia. }
  split; [|split; [|split]].
  - cbn [session]. rewrite Hstep. simpl lookup.
    rewrite Hgood by lia.
    rewrite firstn_all2 by (rewrite length_app; simpl; lia).
    replace (1 + length queue) with (length queue + 1) by lia.
    reflexivity.
  - apply (progress_finished (queue ++ [first]) (length queue + 1) 1).
    rewrite length_app. simpl. lia.
  - intros k Hk. destruct k as [|k].
    + exists [], (started queue). split; [reflexivity|].
      rewrite started_progress. apply progress_unfinished. simpl. lia.
    + rewrite firstn_cons, take_replicate.
      cbn [session]. rewrite Hstep. simpl lookup.
      rewrite Hgood by lia.
      eexists _, _. split; [reflexivity|].
      apply progress_unfinished. rewrite length_app. simpl. lia.
  - intros Hnodup k. split.
    + intros Hk. destruct (decide (k < length queue)) as [Hlt | Hge].
      * left. rewrite lookup_app_l in Hk by done.
        apply (NoDup_lookup queue k 0 first); done.
      * right. apply lookup_lt_Some in Hk. rewrite length_app in Hk.
        simpl in Hk. lia.
    + intros [-> | ->]; [reflexivity|].
      rewrite lookup_app_r by lia.
      by replace (length queue - length queue) with 0 by lia.
Qed.

End ReviewQueueFacts.

(** ** The retrying call to the AI service *)

Section AiServiceFacts.
Import Json AiService.

Lemma settle_retryable again o :
  retryable o = true -> settle (Some again) o = after_wait 2000 again.
Proof.
  unfold retryable, busy, failure, settle, catch_error.
  destruct o as [message | status statusText errorMessage body]; simpl.
  - intros ->. reflexivity.
  - destruct (response_ok status); simpl.
    + destruct body as [message | c u]; simpl; [|discriminate].
      intros ->. reflexivity.
    + destruct (busy_status status); simpl; [done|].
      intros ->. reflexivity.
Qed.

Lemma settle_not_retryable retry o :
  retryable o = false -> settle retry o = ([], settled_with o).
Proof.
  unfold retryable, busy, failure, settle, catch_error, settled_with, reply_of.
  destruct o as [message | status statusText errorMessage body]; simpl.
  - intros ->. by destruct retry.
  - destruct (response_ok status); simpl.
    + destruct body as [message | c u]; simpl; [|done].
      intros ->. by destruct retry.
    + destruct (busy_status status); simpl; [done|].
      intros ->. by destruct retry, body.
Qed.

Lemma settle_exhausted o :
  retryable o = true -> settle None o = ([], settled_with o).
Proof.
  unfold retryable, busy, failure, settle, catch_error, settled_with, reply_of.
  destruct o as [message | status statusText errorMessage body]; simpl; [done|].
  destruct (response_ok status); simpl.
  - destruct body as [message | c u]; simpl; [done|discriminate].
  - by destruct (busy_status status), body.
Qed.

(** [attempt] makes [n] retries for some [n] within the budget: each
    of the first [n] requests met a retryable outcome, and request
    [n] is the last because its outcome is not retryable or because
    the budget is used up. *)
Lemma attempt_policy net retryCount :
  forall call,
  exists n,
    n <= retryCount
    /\ fst (attempt net call retryCount) = retry_trace n
    /\ (forall i, i < n -> retryable (net (call + i)) = true)
    /\ (n < retryCount -> retryable (net (call + n)) = false)
    /\ snd (attempt net call retryCount) = settled_with (net (call + n)).
Proof.
  induction retryCount as [|r IH]; intros call.
  - exists 0. simpl. rewrite Nat.add_0_r.
    destruct (retryable (net call)) eqn:Hre.
    + rewrite settle_exhausted by done. simpl. repeat split; (lia || done).
    + rewrite settle_not_retryable by done. simpl. repeat split; (lia || done).
  - destruct (retryable (net call)) eqn:Hre.
    + destruct (IH (S call)) as (n & Hn & Htrace & Hbefore & Hlast & Hres).
      exists (S n). cbn [attempt]. rewrite settle_retryable by done. simpl.
      rewrite Htrace, Hres.
      replace (call + S n) with (S call + n) by lia.
      split; [lia|]. split; [done|]. split; [|split; [|done]].
      * intros [|i] Hi; [by rewrite Nat.add_0_r|].
        replace (call + S i) with (S call + i) by lia. apply Hbefore. lia.
      * intros Hlt. apply Hlast. lia.
    + exists 0. cbn [attempt]. rewrite settle_not_retryable by done. simpl.
      rewrite Nat.add_0_r. repeat split; (lia || done).
Qed.

Lemma callDeepSeek_with_key store net retries :
  has_api_key store = true ->
  fst (callDeepSeek store net retries) = fst (attempt net 0 retries)
  /\ snd (callDeepSeek store net retries)
     = match snd (attempt net 0 retries) with
       | Resolved reply => Resolved reply
       | Rejected message => Rejected (final_message message)
       end.
Proof.
  unfold has_api_key, callDeepSeek. intros Hkey.
  destruct (ds_api_key store) as [[|c key]|]; try discriminate.
  by destruct (attempt net 0 retries) as [events [reply|message]].
Qed.

(** C8, as stated, fails: a response with status 400, which is
    neither 429 nor 5xx, whose error message mentions the network is
    retried three times, two seconds apart, before the error reaches
    the caller. *)
Lemma bad_request_is_retried :
  (forall i, Examples.bad_request i
             = FetchResponds 400 "Bad Request" (Some "network policy violation")
                 (BodyThrows EmptyString))
  /\ busy_status 400 = false
  /\ callDeepSeek Examples.with_key Examples.bad_request retries_default
     = ([Fetch; Wait 2000; Fetch; Wait 2000; Fetch; Wait 2000; Fetch],
        Rejected "network policy violation").
Proof. repeat split. Qed.

Lemma transient_is_retryable o : transient o = true -> retryable o = true.
Proof.
  unfold transient, retryable. destruct (busy o); [done|]. simpl.
  by destruct o.
Qed.

Lemma permanent_is_not_retryable o : permanent o = true -> retryable o = false.
Proof.
  unfold permanent, retryable. destruct (failure o) as [message|]; [|done].
  intros [Hbusy Hclass]%andb_true_iff.
  apply negb_true_iff in Hbusy, Hclass. rewrite Hbusy. simpl. exact Hclass.
Qed.

(** C8, amended: a call with an API key makes [n] retries for some
    [n <= 3], each after a wait of exactly 2000 ms and nothing else
    between the requests, so at most four requests.  A request whose
    outcome is a response with status 429 or 5xx, or a rejected
    [fetch] whose message contains "fetch" or "network", is retried
    as long as fewer than three retries were made.  A failure that is
    neither such a response nor an error whose message contains
    "fetch" or "network" is the last request of the call: it reaches
    the caller without a retry.  The call settles as its last request
    does. *)
Theorem callDeepSeek_retry_policy :
  forall (store : Storage) (net : Network),
    has_api_key store = true ->
    exists n,
      n <= 3
      /\ fst (callDeepSeek store net retries_default) = retry_trace n
      /\ (forall i, i <= n -> i < 3 -> transient (net i) = true -> i < n)
      /\ (forall i, i <= n -> permanent (net i) = true -> i = n)
      /\ (permanent (net 0) = true ->
            fst (callDeepSeek store net retries_default) = [Fetch])
      /\ snd (callDeepSeek store net retries_default)
         = match settled_with (net n) with
           | Resolved reply => Resolved reply
           | Rejected message => Rejected (final_message message)
           end.
Proof.
  intros store net Hkey.
  destruct (callDeepSeek_with_key store net retries_default Hkey) as [Hfst Hsnd].
  destruct (attempt_policy net retries_default 0)
    as (n & Hn & Htrace & Hbefore & Hlast & Hres).
  cbn [Nat.add] in Hbefore, Hlast, Hres.
  assert (Hperm : forall i, i <= n -> permanent (net i) = true -> i = n).
  { intros i Hi Hp. apply permanent_is_not_retryable in Hp.
    destruct (decide (i = n)) as [|Hne]; [done|].
    rewrite Hbefore in Hp by lia. discriminate. }
  exists n. rewrite Hfst, Hsnd, Hres, Htrace.
  split; [done|]. split; [done|]. split; [|split; [|split; [|done]]].
  - intros i Hi Hi3 Ht. apply transient_is_retryable in Ht.
    destruct (decide (i = n)) as [->|Hne]; [|lia].
    rewrite Hlast in Ht by done. discriminate.
  - exact Hperm.
  - intros Hp. by rewrite <- (Hperm 0) by (lia || done).
Qed.

Lemma callDeepSeek_retry_policy_witness :
  exists n,
    n <= 3
    /\ fst (callDeepSeek Examples.with_key Examples.offline retries_default)
       = retry_trace n
    /\ (forall i, i <= n -> i < 3 -> transient (Examples.offline i) = true -> i < n)
    /\ (forall i, i <= n -> permanent (Examples.offline i) = true -> i = n)
    /\ (permanent (Examples.offline 0) = true ->
          fst (callDeepSeek Examples.with_key Examples.offline retries_default) = [Fetch])
    /\ snd (callDeepSeek Examples.with_key Examples.offline retries_default)
       = match settled_with (Examples.offline n) with
         | Resolved reply => Resolved reply
         | Rejected message => Rejected (final_message message)
         end.
Proof.
  apply (callDeepSeek_retry_policy Examples.with_key Examples.offline).
  reflexivity.
Defined.

(** Three examples: without a connection the call makes its four
    requests, two seconds apart; a 401 response ends it at once; a 503
    followed by an answer costs one retry. *)
Lemma callDeepSeek_examples :
  callDeepSeek Examples.with_key Examples.offline retries_default
  = (retry_trace 3, Rejected "Failed to fetch")
  /\ callDeepSeek Examples.with_key Examples.unauthorized retries_default
     = ([Fetch], Rejected "Authentication Fails")
  /\ fst (callDeepSeek Examples.with_key Examples.busy_once retries_default)
     = [Fetch; Wait 2000; Fetch].
Proof. repeat split. Qed.

(** Without an API key nothing is requested. *)
Lemma callDeepSeek_without_key store net retries :
  has_api_key store = false ->
  callDeepSeek store net retries
  = ([], Rejected "Please enter your DeepSeek API Key in Settings.").
Proof.
  unfold has_api_key, callDeepSeek.
  by destruct (ds_api_key store) as [[|c key]|].
Qed.

(** ** [analyzeCustomText] *)

Lemma analyze_resolved_text defaults store net text obj :
  snd (analyzeCustomText defaults store net text) = Resolved obj ->
  obj !! "text" = Some (JStr text).
Proof.
  unfold analyzeCustomText.
  destruct (getStoredPrompts defaults store) as [p|message]; [|discriminate].
  destruct (callDeepSeek store net retries_default) as [events [reply|message]];
    simpl; [|discriminate].
  intros [= <-]. by simplify_map_eq.
Qed.

(** C9: whenever the prompts load and the call to the service
    resolves, whatever content it resolves with, [analyzeCustomText]
    resolves with an object whose [text] is the input string. *)
Theorem analyze_returns_input_text :
  forall (defaults : PromptConfig) (store : Storage) (net : Network)
         (text : string) (prompts : PromptConfig) (reply : Reply),
    getStoredPrompts defaults store = Resolved prompts ->
    snd (callDeepSeek store net retries_default) = Resolved reply ->
    exists obj,
      snd (analyzeCustomText defaults store net text) = Resolved obj
      /\ obj !! "text" = Some (JStr text).
Proof.
  intros defaults store net text prompts reply Hprompts Hcall.
  unfold analyzeCustomText. rewrite Hprompts.
  destruct (callDeepSeek store net retries_default) as [events result].
  simpl in Hcall. subst result. simpl.
  eexists. split; [reflexivity|]. by simplify_map_eq.
Qed.

Lemma analyze_returns_input_text_witness :
  exists obj,
    snd (analyzeCustomText Examples.prompts Examples.with_key Examples.tampering
           "The text.") = Resolved obj
    /\ obj !! "text" = Some (JStr "The text.").
Proof.
  eapply (analyze_returns_input_text Examples.prompts Examples.with_key
            Examples.tampering "The text."); reflexivity.
Defined.

End AiServiceFacts.

(** ** The lookup dispatcher *)

Section LookupFacts.
Import Json AiService InteractiveText.

(** C6: when the clicked text is not in the vocabulary index, so
    that the word lookup is called, and the lookup fails, whatever
    the failure, [handleWordClick] settles normally, with the loading
    mark cleared and the popover showing a vocabulary item whose
    [word] is the clicked text, whose [definition] is the non-empty
    message that the translation could not be done, and whose [type]
    is "Unknown". *)
Theorem lookup_failure_shows_fallback :
  forall (defaults : PromptConfig) (store : Storage) (net : Network)
         (reportsUsage : bool) (vocabulary : list VocabularyItem)
         (before : Popover) (text clickedText message : string),
    vocabMap vocabulary !! cleanText clickedText = None ->
    snd (lookupWordContext defaults store net clickedText text) = Rejected message ->
    exists item,
      handleWordClick defaults store net reportsUsage vocabulary text before clickedText
      = Resolved ({| selectedWord := Some (ShownItem item); loadingWord := None |}, None)
      /\ word item = clickedText
      /\ definition item = "Unable to translate. Check connection."
      /\ definition item <> EmptyString
      /\ type item = Some "Unknown"
      /\ context item = Some (findSentence text clickedText).
Proof.
  intros defaults store net reportsUsage vocabulary before text clickedText message
    Hmiss Hfail.
  exists (fallback clickedText (findSentence text clickedText)).
  unfold handleWordClick. rewrite Hmiss, Hfail.
  repeat split; done.
Qed.

Lemma lookup_failure_shows_fallback_witness :
  exists item,
    handleWordClick Examples.prompts Examples.with_key Examples.offline true
      [Examples.cat] "The cat sat on the mat. It was happy."
      {| selectedWord := None; loadingWord := None |} "foo"
    = Resolved ({| selectedWord := Some (ShownItem item); loadingWord := None |}, None)
    /\ word item = "foo"
    /\ definition item = "Unable to translate. Check connection."
    /\ definition item <> EmptyString
    /\ type item = Some "Unknown"
    /\ context item
       = Some (findSentence "The cat sat on the mat. It was happy." "foo").
Proof.
  apply (lookup_failure_shows_fallback Examples.prompts Examples.with_key
           Examples.offline true [Examples.cat]
           {| selectedWord := None; loadingWord := None |}
           "The cat sat on the mat. It was happy." "foo" "Failed to fetch").
  - vm_compute. reflexivity.
  - vm_compute. reflexivity.
Defined.

End LookupFacts.

(** ** The tokenizer and annotator *)

Section AnnotatorFacts.
Import InteractiveText.

(** *** The vocabulary index holds the lower-cased words *)

Lemma vocabMap_lookup vocabulary :
  forall (m : gmap string VocabularyItem) key,
    is_Some (fold_left (fun m item => <[JS.toLowerCase (word item) := item]> m)
               vocabulary m !! key)
    <-> is_Some (m !! key)
        \/ exists item, item ∈ vocabulary /\ JS.toLowerCase (word item) = key.
Proof.
  induction vocabulary as [|v vs IH]; intros m key; simpl.
  - split; [by left|]. intros [H | (item & Hin & _)]; [done|].
    by apply not_elem_of_nil in Hin.
  - rewrite IH. split.
    + intros [Hm | (item & Hin & Hkey)].
      * destruct (decide (JS.toLowerCase (word v) = key)) as [Heq | Hne].
        -- right. exists v. split; [left|done].
        -- left. by rewrite lookup_insert_ne in Hm.
      * right. exists item. split; [by right|done].
    + intros [Hm | (item & Hin & Hkey)].
      * left. destruct (decide (JS.toLowerCase (word v) = key)) as [Heq | Hne].
        -- subst key. rewrite lookup_insert_eq. by eexists.
        -- by rewrite lookup_insert_ne.
      * apply elem_of_cons in Hin as [-> | Hin].
        -- left. subst key. rewrite lookup_insert_eq. by eexists.
        -- right. by exists item.
Qed.

Lemma vocabMap_has vocabulary key :
  has (vocabMap vocabulary) key = true
  <-> exists item, item ∈ vocabulary /\ JS.toLowerCase (word item) = key.
Proof.
  unfold has, vocabMap. rewrite bool_decide_eq_true, vocabMap_lookup.
  split; [|by right]. intros [H | H]; [|done].
  rewrite lookup_empty in H. by destruct H.
Qed.

(** *** A word token is never blank *)





(** *** The windows *)




(** The display text of a phrase starts at its first token and is
    made of at least that token. *)
Lemma display_consumes_first len token following :
  1 <= len -> 1 <= snd (display len (token :: following)).
Proof. destruct len; simpl; lia. Qed.

(** *** Where single words are emitted *)





Lemma scenario_sat_on :
  renderTextSegment [Examples.entry "sat on"] "The cat sat on the mat. It was happy."
  = [Spacer 0 EmptyString; Word 1 "The" false; Spacer 2 " ";
     Word 3 "cat" false; Spacer 4 " "; Phrase 5 "sat on" "sat on";
     Spacer 8 " "; Word 9 "the" false; Spacer 10 " ";
     Word 11 "mat" false; Punct 12 ". "; Word 13 "It" false;
     Spacer 14 " "; Word 15 "was" false; Spacer 16 " ";
     Word 17 "happy" false; Punct 18 "."].
Proof. vm_compute. reflexivity. Qed.

End AnnotatorFacts.

(** ** The sentence context *)

Section SentenceFacts.
Import InteractiveText.

(** The scenario of the specification: each of the three clickable
    tokens of the second sentence resolves to that sentence. *)
Lemma scenario_second_sentence :
  sentences "The cat sat on the mat. It was happy."
  = ["The cat sat on the mat."; " It was happy."]
  /\ findSentence "The cat sat on the mat. It was happy." "It" = "It was happy."
  /\ findSentence "The cat sat on the mat. It was happy." "was" = "It was happy."
  /\ findSentence "The cat sat on the mat. It was happy." "happy" = "It was happy.".
Proof. repeat split. Qed.

(** A text without a terminator is one sentence. *)
Lemma findSentence_single_sentence :
  findSentence "hello world" "World" = "hello world"
  /\ SentenceSpec.context_of "hello world" "World" = "hello world".
Proof. split; reflexivity. Qed.

(** *** Where [findSentence] and the specification agree *)

Lemma append_cons c (s t : string) : (String c s ++ t)%string = String c (s ++ t)%string.
Proof. reflexivity. Qed.

Lemma append_empty_r (s : string) : (s ++ EmptyString)%string = s.
Proof. induction s as [|c s IH]; [done|]. by rewrite append_cons, IH. Qed.

Lemma append_assoc (s t u : string) :
  (s ++ (t ++ u))%string = ((s ++ t) ++ u)%string.
Proof. induction s as [|c s IH]; [done|]. by rewrite !append_cons, IH. Qed.

Lemma append_snoc (s t : string) c : (s ++ snoc t c)%string = snoc (s ++ t)%string c.
Proof. unfold snoc. apply append_assoc. Qed.

Lemma nonempty_append_l (s t : string) :
  SentenceSpec.nonempty s = true -> SentenceSpec.nonempty (s ++ t)%string = true.
Proof. by destruct s. Qed.

(** Once a sentence is being read, the scan of [findSentence] and the
    split of the specification go the same way on a text that ends
    with a terminator, and the scan finds a sentence. *)
Lemma matches_agree_when_closed s :
  forall body term,
    SentenceSpec.nonempty body = true ->
    SentenceSpec.ends_with_terminator (SentenceSpec.nonempty term) s = true ->
    SentenceSpec.split_sentences (body ++ term)%string (SentenceSpec.nonempty term) s
    = sentence_matches body term s
    /\ sentence_matches body term s <> [].
Proof.
  induction s as [|c s IH]; intros body term Hbody Hend.
  - cbn [SentenceSpec.ends_with_terminator] in Hend.
    cbn [SentenceSpec.split_sentences sentence_matches].
    pose proof (nonempty_append_l body term Hbody) as Hcur.
    destruct term as [|t term]; [discriminate|].
    by destruct (body ++ String t term)%string.
  - cbn [SentenceSpec.ends_with_terminator] in Hend.
    cbn [SentenceSpec.split_sentences sentence_matches].
    destruct (is_terminator c) eqn:Hc.
    + destruct body as [|b body]; [discriminate|].
      rewrite <- append_snoc.
      assert (Hterm : SentenceSpec.nonempty (snoc term c) = true).
      { unfold snoc. by destruct term. }
      destruct (IH (String b body) (snoc term c)) as [Heq Hne]; [done|by rewrite Hterm|].
      by rewrite Hterm in Heq.
    + destruct term as [|t term].
      * rewrite append_empty_r. cbn [SentenceSpec.nonempty].
        destruct (IH (snoc body c) EmptyString) as [Heq Hne].
        { unfold snoc. by apply nonempty_append_l. }
        { done. }
        by rewrite append_empty_r in Heq.
      * cbn [SentenceSpec.nonempty].
        destruct (IH (String c EmptyString) EmptyString) as [Heq Hne]; [done|done|].
        rewrite append_empty_r in Heq. cbn [SentenceSpec.nonempty] in Heq.
        rewrite Heq. done.
Qed.

Lemma matches_without_terminator s :
  forall body,
    SentenceSpec.has_terminator s = false ->
    sentence_matches body EmptyString s = []
    /\ SentenceSpec.split_sentences body false s
       = if SentenceSpec.nonempty (body ++ s)%string then [(body ++ s)%string] else [].
Proof.
  unfold SentenceSpec.has_terminator.
  induction s as [|c s IH]; intros body Hnone.
  - cbn [sentence_matches SentenceSpec.split_sentences].
    rewrite append_empty_r. by destruct body.
  - cbn [JS.any_char] in Hnone. apply orb_false_iff in Hnone as [Hc Hs].
    cbn [sentence_matches SentenceSpec.split_sentences]. rewrite Hc.
    destruct (IH (snoc body c) Hs) as [Hm Hsplit]. rewrite Hm, Hsplit.
    unfold snoc. rewrite <- append_assoc. done.
Qed.

(** On a text that does not start with a terminator and either ends
    with one or has none, [findSentence] gives the context the
    specification describes. *)
Lemma findSentence_agrees_on_closed_text fullText token :
  SentenceSpec.starts_with_terminator fullText = false ->
  SentenceSpec.ends_with_terminator false fullText = true
  \/ SentenceSpec.has_terminator fullText = false ->
  findSentence fullText token = SentenceSpec.context_of fullText token.
Proof.
  intros Hstart Hshape.
  unfold findSentence, SentenceSpec.context_of, sentences, SentenceSpec.sentences.
  change SentenceSpec.first_with with first_containing.
  destruct Hshape as [Hend | Hnone].
  - destruct fullText as [|c s]; [discriminate|].
    cbn [SentenceSpec.starts_with_terminator] in Hstart.
    cbn [SentenceSpec.ends_with_terminator] in Hend. rewrite Hstart in Hend.
    cbn [sentence_matches SentenceSpec.split_sentences]. rewrite Hstart.
    destruct (matches_agree_when_closed s (String c EmptyString) EmptyString)
      as [Heq Hne]; [done|done|].
    rewrite append_empty_r in Heq. cbn [SentenceSpec.nonempty] in Heq.
    change (snoc EmptyString c) with (String c EmptyString). rewrite Heq.
    by destruct (sentence_matches (String c EmptyString) EmptyString s).
  - destruct (matches_without_terminator fullText EmptyString Hnone) as [Hm Hsplit].
    rewrite Hm, Hsplit.
    destruct fullText as [|c s]; [|done].
    change (EmptyString ++ EmptyString)%string with EmptyString. cbn.
    by destruct (JS.startsWith (JS.toLowerCase token) EmptyString).
Qed.

(** C5 at the failing input: in "Hi there. Bye" the words after the
    last full stop belong to no sentence of [findSentence], which
    answers with the empty string for the token "Bye", while the
    text split on its terminators has the piece " Bye", which
    contains the token. *)
Theorem findSentence_drops_text_after_last_terminator :
  sentences "Hi there. Bye" = ["Hi there."]
  /\ findSentence "Hi there. Bye" "Bye" = EmptyString
  /\ SentenceSpec.sentences "Hi there. Bye" = ["Hi there."; " Bye"]
  /\ SentenceSpec.context_of "Hi there. Bye" "Bye" = "Bye".
Proof. repeat split. Qed.

End SentenceFacts.

(** ** The shuffle of [startLearning] *)

Section ShuffleFacts.
Import ReviewQueue.

(** On an empty list [startLearning] does nothing; otherwise it
    installs the queue the sort returns, with index 0 and counters 0. *)
Lemma startLearning_installs engine random filteredWords st :
  startLearning engine random filteredWords st
  = match filteredWords with
    | [] => st
    | _ => started (run_sort (engine filteredWords) random 0)
    end.
Proof. by destruct filteredWords. Qed.

(** A finite list of draws that settles the sort settles every run
    that starts with these draws. *)
Lemma run_sort_outcome t :
  forall draws q random n,
    outcome_within t draws = Some q ->
    (forall i r, draws !! i = Some r -> random (n + i) = r) ->
    run_sort t random n = q.
Proof.
  induction t as [result | a b next IH]; intros draws q random n Hout Hdraws; simpl in *.
  - congruence.
  - destruct draws as [|r rs]; [discriminate|].
    assert (random n = r) as ->.
    { rewrite <- (Hdraws 0 r eq_refl). f_equal. lia. }
    apply (IH _ rs); [done|].
    intros i r' Hi. replace (S n + i) with (n + S i) by lia. by apply Hdraws.
Qed.

Lemma length_grid bits : length (grid bits) = 2 ^ bits.
Proof. unfold grid. by rewrite length_map, length_seq. Qed.

(** There are [(2^bits)^d] sequences of [d] draws. *)
Lemma length_all_draws bits d : length (all_draws bits d) = (2 ^ bits) ^ d.
Proof.
  induction d as [|d IH]; [reflexivity|]. cbn [all_draws].
  rewrite (flat_map_constant_length (c := (2 ^ bits) ^ d)).
  - rewrite length_grid. by rewrite Nat.pow_succ_r'.
  - intros r _. by rewrite length_map.
Qed.

Lemma pow2_residue k : exists q, 2 ^ k = 3 * q + 1 \/ 2 ^ k = 3 * q + 2.
Proof.
  induction k as [|k [q [IH | IH]]].
  - exists 0. by left.
  - exists (2 * q). right. rewrite Nat.pow_succ_r'. lia.
  - exists (2 * q + 1). left. rewrite Nat.pow_succ_r'. lia.
Qed.

Lemma pow2_not_multiple_of_3 k c : 2 ^ k <> 3 * c.
Proof. destruct (pow2_residue k) as [q [H | H]]; lia. Qed.

Lemma fact_multiple_of_3 n : 3 <= n -> exists c, fact n = 3 * c.
Proof.
  induction n as [|n IH]; [lia|]. intros Hn.
  destruct (decide (n = 2)) as [-> | Hne].
  - exists 2. reflexivity.
  - destruct IH as [q Hq]; [lia|]. exists (S n * q).
    change (fact (S n)) with (S n * fact n). rewrite Hq. lia.
Qed.

(** Whatever sort the host runs and whatever the resolution of
    [Math.random()], no queue of three or more cards comes out with
    probability 1/N!: the number of draw sequences that give it,
    times N!, is never the number of all draw sequences, because
    that is a power of two and N! is a multiple of three. *)
Lemma random_comparator_sort_never_uniform engine filteredWords bits d p :
  3 <= length filteredWords ->
  fact (length filteredWords) * ways engine filteredWords bits d p
  <> length (all_draws bits d).
Proof.
  intros Hlen Heq. rewrite length_all_draws, <- Nat.pow_mul_r in Heq.
  destruct (fact_multiple_of_3 _ Hlen) as [c Hc]. rewrite Hc in Heq.
  apply (pow2_not_multiple_of_3 (bits * d)
                                (c * ways engine filteredWords bits d p)). lia.
Qed.

(** C2 at the failing input, three cards.  The queue is what the
    host's sort returns under a comparator that ignores the two cards
    it is given and answers [Math.random() - 0.5]; so for every host
    sort, every resolution of [Math.random()] and every number of
    draws, no order of the three cards has probability 1/6.  With an
    insertion sort and a [Math.random()] of three bits, 200 of the
    512 equally likely draw sequences keep the cards in their order
    and 27 reverse it. *)
Theorem startLearning_shuffle_is_biased :
  let words := [Examples.cat; Examples.dog; Examples.owl] in
  (forall r a b a' b', comparator r a b = comparator r a' b')
  /\ (forall engine random st,
        startLearning engine random words st
        = started (run_sort (engine words) random 0))
  /\ (forall engine bits d p,
        6 * ways engine words bits d p <> length (all_draws bits d))
  /\ length (all_draws 3 3) = 512
  /\ ways insertion_engine words 3 3 [Examples.cat; Examples.dog; Examples.owl] = 200
  /\ ways insertion_engine words 3 3 [Examples.owl; Examples.dog; Examples.cat] = 27.
Proof.
  intros words. split; [|split; [|split; [|split; [|split]]]].
  - reflexivity.
  - reflexivity.
  - intros engine bits d p.
    apply (random_comparator_sort_never_uniform engine words bits d p).
    simpl. lia.
  - reflexivity.
  - vm_compute. reflexivity.
  - vm_compute. reflexivity.
Qed.

End ShuffleFacts.

(** ** More on the saved-words collection and on the history *)

Section SavedWordsMore.
Import SavedWords.

Lemma isSaved_app savedWords more item :
  isSaved (savedWords ++ more) item = isSaved savedWords item || isSaved more item.
Proof. unfold isSaved. apply existsb_app. Qed.

(** Membership after a removal: the entries for [wordStr] are gone and
    the others are where they were. *)
Lemma isSaved_remove savedWords wordStr item :
  isSaved (handleRemoveSavedWord savedWords wordStr) item
  = isSaved savedWords item && negb (String.eqb (word item) wordStr).
Proof.
  apply Bool.eq_iff_eq_true.
  rewrite andb_true_iff, negb_true_iff, String.eqb_neq, !isSaved_spec.
  unfold handleRemoveSavedWord. split.
  - intros (w & Hin & Hw). apply elem_of_filter_bool in Hin as [Hin Hkeep].
    apply negb_true_iff, String.eqb_neq in Hkeep.
    split; [by exists w|]. congruence.
  - intros [(w & Hin & Hw) Hne]. exists w. split; [|done].
    apply elem_of_filter_bool. split; [done|].
    apply negb_true_iff, String.eqb_neq. congruence.
Qed.

Lemma toggle_saved_is_remove savedWords item :
  isSaved savedWords item = true ->
  handleToggleSaveWord savedWords item = handleRemoveSavedWord savedWords (word item).
Proof.
  intros Hsaved. unfold handleToggleSaveWord, handleRemoveSavedWord.
  fold (isSaved savedWords item). rewrite Hsaved. reflexivity.
Qed.

(** Toggling an item flips whether it counts as saved and changes
    nothing for the items with another word. *)
Theorem toggle_flips_membership :
  forall (savedWords : list VocabularyItem) (item : VocabularyItem),
    isSaved (handleToggleSaveWord savedWords item) item = negb (isSaved savedWords item)
    /\ forall other,
         word other <> word item ->
         isSaved (handleToggleSaveWord savedWords item) other = isSaved savedWords other.
Proof.
  intros savedWords item. destruct (isSaved savedWords item) eqn:Hsaved.
  - rewrite toggle_saved_is_remove by done. split.
    + rewrite isSaved_remove, String.eqb_refl. apply andb_false_r.
    + intros other Hne. rewrite isSaved_remove.
      apply String.eqb_neq in Hne. rewrite Hne. apply andb_true_r.
  - unfold handleToggleSaveWord. fold (isSaved savedWords item). rewrite Hsaved.
    split.
    + rewrite isSaved_app, Hsaved. unfold isSaved, same_word. simpl.
      by rewrite String.eqb_refl.
    + intros other Hne. rewrite isSaved_app. unfold isSaved at 2. simpl.
      unfold same_word. apply not_eq_sym, String.eqb_neq in Hne. rewrite Hne.
      by rewrite !orb_false_r.
Qed.

Lemma NoDup_map_filter {A B} (f : A -> B) (p : A -> bool) (l : list A) :
  NoDup (map f l) -> NoDup (map f (List.filter p l)).
Proof.
  induction l as [|x l IH]; simpl; [done|].
  intros [Hx Hl]%NoDup_cons. destruct (p x); simpl; [|by apply IH].
  apply NoDup_cons. split; [|by apply IH].
  intros Hin. apply Hx. apply list_elem_of_fmap in Hin as (y & Hy & Hin).
  apply list_elem_of_fmap. exists y. split; [done|].
  apply elem_of_filter_bool in Hin. tauto.
Qed.

(** When no two saved entries have the same word, toggling and
    removing keep it so. *)
Theorem toggle_and_remove_keep_words_distinct :
  forall (savedWords : list VocabularyItem) (item : VocabularyItem) (wordStr : string),
    NoDup (map word savedWords) ->
    NoDup (map word (handleToggleSaveWord savedWords item))
    /\ NoDup (map word (handleRemoveSavedWord savedWords wordStr)).
Proof.
  intros savedWords item wordStr Hdistinct. split.
  - destruct (isSaved savedWords item) eqn:Hsaved.
    + rewrite toggle_saved_is_remove by done. by apply NoDup_map_filter.
    + unfold handleToggleSaveWord. fold (isSaved savedWords item). rewrite Hsaved.
      rewrite map_app. apply NoDup_app. split; [done|]. split.
      * intros w Hin Hw. apply list_elem_of_singleton in Hw. subst w.
        apply list_elem_of_fmap in Hin as (e & He & Hin).
        apply not_true_iff_false in Hsaved. apply Hsaved, isSaved_spec.
        by exists e.
      * apply NoDup_singleton.
  - by apply NoDup_map_filter.
Qed.

Lemma toggle_and_remove_keep_words_distinct_witness :
  NoDup (map word (handleToggleSaveWord [Examples.cat; Examples.dog] Examples.owl))
  /\ NoDup (map word (handleRemoveSavedWord [Examples.cat; Examples.dog] "cat")).
Proof.
  apply (toggle_and_remove_keep_words_distinct
           [Examples.cat; Examples.dog] Examples.owl "cat").
  apply (bool_decide_unpack _). vm_compute. reflexivity.
Defined.

(** [handleAddManualWord] puts the card first without looking for its
    word; un-saving that word afterwards removes the new card and
    every older entry with the same word. *)
Theorem unsave_after_manual_add_removes_all_copies :
  forall (savedWords : list VocabularyItem) (item : VocabularyItem),
    isSaved (handleAddManualWord savedWords item) item = true
    /\ handleToggleSaveWord (handleAddManualWord savedWords item) item
       = handleRemoveSavedWord savedWords (word item)
    /\ forall other,
         word other = word item ->
         other ∉ handleToggleSaveWord (handleAddManualWord savedWords item) item.
Proof.
  intros savedWords item.
  assert (Hsaved : isSaved (handleAddManualWord savedWords item) item = true).
  { unfold isSaved, handleAddManualWord, same_word. simpl.
    by rewrite String.eqb_refl. }
  assert (Htoggle : handleToggleSaveWord (handleAddManualWord savedWords item) item
                    = handleRemoveSavedWord savedWords (word item)).
  { rewrite toggle_saved_is_remove by done.
    unfold handleRemoveSavedWord, handleAddManualWord. simpl.
    by rewrite String.eqb_refl. }
  split; [done|]. split; [done|].
  intros other Hword Hin. rewrite Htoggle in Hin.
  unfold handleRemoveSavedWord in Hin. apply elem_of_filter_bool in Hin as [_ Hkeep].
  apply negb_true_iff, String.eqb_neq in Hkeep. done.
Qed.

(** Removing a word twice is removing it once, and the list never
    grows. *)
Theorem remove_is_idempotent :
  forall (savedWords : list VocabularyItem) (wordStr : string),
    handleRemoveSavedWord (handleRemoveSavedWord savedWords wordStr) wordStr
    = handleRemoveSavedWord savedWords wordStr
    /\ length (handleRemoveSavedWord savedWords wordStr) <= length savedWords
    /\ forall item, word item = wordStr ->
         isSaved (handleRemoveSavedWord savedWords wordStr) item = false.
Proof.
  intros savedWords wordStr. unfold handleRemoveSavedWord. split; [|split].
  - induction savedWords as [|w ws IH]; simpl; [done|].
    destruct (String.eqb (word w) wordStr) eqn:Hw; simpl; [done|].
    rewrite Hw. simpl. by rewrite IH.
  - apply List.filter_length_le.
  - intros item <-. fold (handleRemoveSavedWord savedWords (word item)).
    rewrite isSaved_remove, String.eqb_refl. apply andb_false_r.
Qed.

End SavedWordsMore.

Section HistoryFacts.
Import Sessions.

(** Deleting, once confirmed, takes out every session with the given
    id and keeps the others in their order; so finishing a session
    whose id is new and then deleting it gives the history back.
    A deletion that is not confirmed changes nothing. *)
Theorem delete_after_finish_restores_history :
  forall (history : list PracticeSession) (finished : PracticeSession),
    (forall s, s ∈ history -> id s <> id finished) ->
    handleDeleteSession true (handleFinishSession history finished) (id finished) = history
    /\ handleDeleteSession false (handleFinishSession history finished) (id finished)
       = finished :: history.
Proof.
  intros history finished Hfresh. split; [|reflexivity].
  unfold handleDeleteSession, handleFinishSession. simpl.
  rewrite String.eqb_refl. simpl.
  induction history as [|s l IH]; simpl; [done|].
  assert (String.eqb (id s) (id finished) = false) as ->.
  { apply String.eqb_neq, Hfresh. left. }
  simpl. f_equal. apply IH. intros s' Hin. apply Hfresh. by right.
Qed.

Lemma delete_after_finish_restores_history_witness :
  handleDeleteSession true
    (handleFinishSession [startSession 1000 1000 "A" "Text a." [] no_usage]
       (startSession 2000 2001 "B" "Text b." [] no_usage))
    (id (startSession 2000 2001 "B" "Text b." [] no_usage))
  = [startSession 1000 1000 "A" "Text a." [] no_usage].
Proof.
  refine (proj1 (delete_after_finish_restores_history
                   [startSession 1000 1000 "A" "Text a." [] no_usage]
                   (startSession 2000 2001 "B" "Text b." [] no_usage) _)).
  intros s Hs. apply list_elem_of_singleton in Hs. subst s.
  vm_compute. discriminate.
Defined.

(** Sessions started at different times have different ids, and a
    confirmed deletion of one leaves the other in the history. *)
Theorem sessions_started_apart_are_told_apart :
  forall (now now' date date' : nat) (title title' text text' : string)
         (vocabulary vocabulary' : list VocabularyItem) (usage usage' : TokenUsage)
         (history : list PracticeSession),
    now <> now' ->
    let s := startSession now date title text vocabulary usage in
    let s' := startSession now' date' title' text' vocabulary' usage' in
    id s <> id s'
    /\ (s ∈ history -> s ∈ handleDeleteSession true history (id s'))
    /\ s' ∉ handleDeleteSession true history (id s').
Proof.
  intros now now' date date' title title' text text' vocabulary vocabulary' usage usage'
    history Hapart s s'.
  assert (Hid : id s <> id s').
  { simpl. intros Heq. by apply Hapart, (inj pretty). }
  split; [done|]. unfold handleDeleteSession. split.
  - intros Hin. apply elem_of_filter_bool. split; [done|].
    by apply negb_true_iff, String.eqb_neq.
  - intros Hin. apply elem_of_filter_bool in Hin as [_ Hkeep].
    apply negb_true_iff, String.eqb_neq in Hkeep. done.
Qed.

Lemma sessions_started_apart_are_told_apart_witness :
  id (startSession 1000 1000 "A" "Text a." [] no_usage)
  <> id (startSession 2000 2001 "B" "Text b." [] no_usage).
Proof.
  refine (proj1 (sessions_started_apart_are_told_apart 1000 2000 1000 2001 "A" "B"
                   "Text a." "Text b." [] [] no_usage no_usage [] _)).
  lia.
Defined.

Lemma fold_add_session history :
  forall p r,
    fold_left add_session history (p, r)
    = (p + list_sum (map session_prompt history),
       r + list_sum (map session_response history)).
Proof.
  induction history as [|s l IH]; intros p r; simpl.
  - f_equal; lia.
  - rewrite IH. unfold session_prompt, session_response. f_equal; lia.
Qed.

(** The counters of the setup view are the sums over the sessions of
    the history, whatever their order; the total is the sum of the
    two; and finishing a session adds exactly its own counters. *)
Theorem tokenStats_adds_up :
  forall (history : list PracticeSession) (finished : PracticeSession),
    prompt (tokenStats history) = list_sum (map session_prompt history)
    /\ response (tokenStats history) = list_sum (map session_response history)
    /\ total (tokenStats history)
       = prompt (tokenStats history) + response (tokenStats history)
    /\ prompt (tokenStats (handleFinishSession history finished))
       = prompt (tokenStats history) + session_prompt finished
    /\ response (tokenStats (handleFinishSession history finished))
       = response (tokenStats history) + session_response finished
    /\ (forall history', history' ≡ₚ history -> tokenStats history' = tokenStats history).
Proof.
  intros history finished.
  assert (Hstats : forall h,
            tokenStats h
            = {| prompt := list_sum (map session_prompt h);
                 response := list_sum (map session_response h);
                 total := list_sum (map session_prompt h)
                          + list_sum (map session_response h) |}).
  { intros h. unfold tokenStats. by rewrite fold_add_session. }
  rewrite !Hstats. unfold handleFinishSession. simpl.
  repeat split; try lia.
  intros history' Hperm. rewrite !Hstats.
  assert (list_sum (map session_prompt history')
          = list_sum (map session_prompt history)) as ->.
  { apply Permutation_list_sum. by apply Permutation_map. }
  assert (list_sum (map session_response history')
          = list_sum (map session_response history)) as ->.
  { apply Permutation_list_sum. by apply Permutation_map. }
  done.
Qed.

(** The lookup counters of a practice session after a series of
    lookups are the starting counters plus the sums of the usages
    reported, field by field. *)
Theorem handleTokenUpdate_accumulates :
  forall (reports : list TokenUsage) (start : TokenUsage),
    let final := fold_left handleTokenUpdate reports start in
    promptTokens final = promptTokens start + list_sum (map promptTokens reports)
    /\ responseTokens final = responseTokens start + list_sum (map responseTokens reports)
    /\ totalTokens final = totalTokens start + list_sum (map totalTokens reports).
Proof.
  induction reports as [|u us IH]; intros start; simpl.
  - lia.
  - destruct (IH (handleTokenUpdate start u)) as (Hp & Hr & Ht).
    rewrite Hp, Hr, Ht. simpl. lia.
Qed.

End HistoryFacts.

(** ** More on the review queue and on the deck list *)

Section ReviewQueueMore.
Import ReviewQueue.

Lemma handleGrade_progress g queue n h card :
  queue !! n = Some card ->
  handleGrade g (progress queue n h)
  = Some (progress (if is_hard g then queue ++ [card] else queue)
                   (n + 1) (if is_hard g then h + 1 else h)).
Proof.
  intros Hcard. destruct g; simpl.
  - exact (handleGrade_hard queue n h card Hcard).
  - exact (handleGrade_not_hard GOOD queue n h card (or_introl eq_refl) Hcard).
  - exact (handleGrade_not_hard EASY queue n h card (or_intror eq_refl) Hcard).
Qed.

(** Whatever the grades, a session that runs keeps these books: every
    grade moves the index and [reviewed] by one, every HARD grade adds
    one to [hard] and one card at the end of the queue, nothing else
    touches the queue, and the cards served are the queue entries in
    order. *)
Lemma session_from_progress grades :
  forall queue n h served st,
    n <= length queue ->
    session grades (progress queue n h) = Some (served, st) ->
    exists extra,
      st = progress (queue ++ extra) (n + length grades) (h + hard_count grades)
      /\ length extra = hard_count grades
      /\ served = take (length grades) (drop n (queue ++ extra))
      /\ n + length grades <= length queue + hard_count grades.
Proof.
  induction grades as [|g gs IH]; intros queue n h served st Hstart Hrun.
  - injection Hrun as <- <-. exists []. unfold hard_count. simpl.
    rewrite app_nil_r, !Nat.add_0_r. split; [done|]. split; [done|]. split; [done|].
    lia.
  - cbn [session] in Hrun.
    destruct (studyQueue (progress queue n h) !! currentCardIndex (progress queue n h))
      as [card|] eqn:Hcard; [|discriminate].
    simpl in Hcard. rewrite (handleGrade_progress g queue n h card Hcard) in Hrun.
    destruct (session gs _) as [[served' st']|] eqn:Hrest; [|discriminate].
    injection Hrun as <- <-.
    pose proof (lookup_lt_Some _ _ _ Hcard) as Hn.
    apply IH in Hrest as (extra & -> & Hextra & -> & Hbound);
      [|destruct (is_hard g); rewrite ?length_app; simpl; lia].
    assert (Hcount : hard_count (g :: gs)
                     = (if is_hard g then 1 else 0) + hard_count gs).
    { unfold hard_count. simpl. by destruct (is_hard g). }
    exists ((if is_hard g then [card] else []) ++ extra).
    assert (Hqueue : (if is_hard g then queue ++ [card] else queue) ++ extra
                     = queue ++ (if is_hard g then [card] else []) ++ extra).
    { destruct (is_hard g); [by rewrite <- app_assoc|done]. }
    rewrite Hqueue in *. rewrite Hcount. simpl length.
    split; [|split; [|split]].
    + replace (n + 1 + length gs) with (n + S (length gs)) by lia.
      destruct (is_hard g); [|done].
      by replace (h + 1 + hard_count gs) with (h + (1 + hard_count gs)) by lia.
    + rewrite length_app, Hextra. by destruct (is_hard g).
    + rewrite (drop_S _ card n) by (by apply lookup_app_l_Some).
      simpl. by replace (n + 1) with (S n) by lia.
    + destruct (is_hard g); rewrite ?length_app in Hbound; simpl in Hbound; lia.
Qed.

(** A session of any grades that runs from the state [startLearning]
    installs for a queue of N cards: [reviewed] and the index are the
    number of grades, [hard] is the number of HARD grades, the queue is
    the starting queue followed by one requeued card per HARD grade,
    the cards served are the first entries of that queue, and the
    session is finished exactly when the number of grades is N plus
    the number of HARD grades. *)
Theorem session_keeps_the_books :
  forall (queue : list VocabularyItem) (grades : list Difficulty)
         (served : list VocabularyItem) (st : State),
    session grades (started queue) = Some (served, st) ->
    reviewed (sessionStats st) = length grades
    /\ hard (sessionStats st) = hard_count grades
    /\ currentCardIndex st = length grades
    /\ length (studyQueue st) = length queue + hard_count grades
    /\ queue `prefix_of` studyQueue st
    /\ served = take (length grades) (studyQueue st)
    /\ (isFinished st = true <-> length grades = length queue + hard_count grades).
Proof.
  intros queue grades served st Hrun. rewrite started_progress in Hrun.
  apply session_from_progress in Hrun as (extra & -> & Hextra & -> & Hbound);
    [|simpl; lia].
  simpl in *. rewrite drop_0, length_app, Hextra.
  repeat split; try done.
  - by exists extra.
  - intros Hfin. apply progress_finished in Hfin. rewrite length_app in Hfin. lia.
  - intros Hlen. apply progress_finished. rewrite length_app. lia.
Qed.

Lemma session_keeps_the_books_witness :
  reviewed (sessionStats (progress [Examples.cat; Examples.dog; Examples.cat] 3 1)) = 3.
Proof.
  refine (proj1 (session_keeps_the_books [Examples.cat; Examples.dog]
                   [HARD; EASY; GOOD]
                   [Examples.cat; Examples.dog; Examples.cat]
                   (progress [Examples.cat; Examples.dog; Examples.cat] 3 1) _)).
  reflexivity.
Defined.

Lemma all_hard_from_progress k :
  forall queue n h,
    n < length queue ->
    exists served extra,
      session (replicate k HARD) (progress queue n h)
      = Some (served, progress (queue ++ extra) (n + k) (h + k))
      /\ length extra = k.
Proof.
  induction k as [|k IH]; intros queue n h Hn.
  - exists [], []. simpl. rewrite app_nil_r, !Nat.add_0_r. done.
  - destruct (lookup_lt_is_Some_2 queue n Hn) as [card Hcard].
    destruct (IH (queue ++ [card]) (n + 1) (h + 1)) as (served & extra & Hrun & Hextra).
    { rewrite length_app. simpl. lia. }
    exists (card :: served), (card :: extra).
    cbn [replicate session]. simpl lookup. rewrite Hcard.
    rewrite (handleGrade_hard queue n h card Hcard), Hrun.
    rewrite <- app_assoc. simpl.
    replace (n + 1 + k) with (n + S k) by lia.
    replace (h + 1 + k) with (h + S k) by lia.
    split; [done|]. simpl. by rewrite Hextra.
Qed.

(** A learner who grades every card HARD never reaches the end: after
    any number k of HARD grades on a non-empty queue of N cards the
    session is still running, with N + k cards in the queue and
    [reviewed = hard = k]. *)
Theorem grading_hard_forever_never_finishes :
  forall (queue : list VocabularyItem) (k : nat),
    queue <> [] ->
    exists served st,
      session (replicate k HARD) (started queue) = Some (served, st)
      /\ isFinished st = false
      /\ length (studyQueue st) = length queue + k
      /\ reviewed (sessionStats st) = k
      /\ hard (sessionStats st) = k.
Proof.
  intros queue k Hne.
  assert (Hpos : 0 < length queue) by (destruct queue; [done|simpl; lia]).
  destruct (all_hard_from_progress k queue 0 0 Hpos) as (served & extra & Hrun & Hextra).
  exists served, (progress (queue ++ extra) (0 + k) (0 + k)).
  rewrite started_progress. split; [done|]. simpl.
  rewrite length_app, Hextra. repeat split; try done.
  apply progress_unfinished. rewrite length_app. lia.
Qed.

Lemma grading_hard_forever_never_finishes_witness :
  exists served st,
    session (replicate 5 HARD) (started [Examples.cat]) = Some (served, st)
    /\ isFinished st = false
    /\ length (studyQueue st) = length [Examples.cat] + 5
    /\ reviewed (sessionStats st) = 5
    /\ hard (sessionStats st) = 5.
Proof.
  apply (grading_hard_forever_never_finishes [Examples.cat] 5). discriminate.
Defined.

(** One grade: the index and [reviewed] move by one, the queue is
    only ever extended, and the number of cards still to serve goes
    down by one unless the grade is HARD. *)
Lemma handleGrade_step g st st' :
  handleGrade g st = Some st' ->
  currentCardIndex st' = currentCardIndex st + 1
  /\ reviewed (sessionStats st') = reviewed (sessionStats st) + 1
  /\ studyQueue st `prefix_of` studyQueue st'
  /\ length (studyQueue st') - currentCardIndex st'
     = length (studyQueue st) - currentCardIndex st - (if is_hard g then 0 else 1).
Proof.
  unfold handleGrade.
  destruct (studyQueue st !! currentCardIndex st) as [card|] eqn:Hcard; [|done].
  apply lookup_lt_Some in Hcard.
  intros Hst'. destruct g; injection Hst' as <-; simpl;
    rewrite ?length_app; simpl; repeat split; try lia;
    (by apply prefix_app_r) || done.
Qed.

End ReviewQueueMore.

Section VocabularyListFacts.
Import VocabularyList.

Lemma includes_empty s : JS.includes s EmptyString = true.
Proof. by destruct s. Qed.

Lemma toLowerCase_empty_iff s : JS.toLowerCase s = EmptyString <-> s = EmptyString.
Proof. by destruct s. Qed.

Lemma filteredWords_filter savedWords filter searchTerm :
  filteredWords savedWords filter searchTerm
  = List.filter (fun w => passes filter w && matches_search searchTerm w) savedWords.
Proof.
  assert (Hall : forall l : list VocabularyItem, List.filter (fun _ => true) l = l).
  { induction l as [|x l IH]; simpl; [done|]. by rewrite IH. }
  assert (Hsearch : forall l,
            match searchTerm with
            | EmptyString => l
            | _ => List.filter (matches_search searchTerm) l
            end = List.filter (matches_search searchTerm) l).
  { intros l. destruct searchTerm; [|done].
    unfold matches_search. simpl. rewrite <- (Hall l) at 1.
    apply List.filter_ext. intros w. by rewrite includes_empty. }
  assert (Htwice : forall (f g : VocabularyItem -> bool) l,
            List.filter f (List.filter g l) = List.filter (fun w => g w && f w) l).
  { intros f g. induction l as [|x l IH]; simpl; [done|].
    destruct (g x); simpl; [|done]. destruct (f x); by rewrite IH. }
  unfold filteredWords. rewrite Hsearch.
  destruct filter; simpl; by rewrite ?Htwice.
Qed.

(** The list under a filter tab holds exactly the saved words of that
    level that match the search, in the order they are saved in; an
    empty search matches every word; and the search does not depend on
    the case of the search term. *)
Theorem filteredWords_lists_the_matches :
  forall (savedWords : list VocabularyItem) (filter : FilterType) (searchTerm : string),
    (forall w, w ∈ filteredWords savedWords filter searchTerm
               <-> w ∈ savedWords /\ passes filter w = true
                   /\ matches_search searchTerm w = true)
    /\ filteredWords savedWords filter searchTerm `sublist_of` savedWords
    /\ filteredWords savedWords ALL EmptyString = savedWords
    /\ (forall searchTerm',
          JS.toLowerCase searchTerm' = JS.toLowerCase searchTerm ->
          filteredWords savedWords filter searchTerm'
          = filteredWords savedWords filter searchTerm).
Proof.
  intros savedWords filter searchTerm.
  split; [|split; [|split]].
  - intros w. rewrite filteredWords_filter, elem_of_filter_bool, andb_true_iff. tauto.
  - rewrite filteredWords_filter.
    induction savedWords as [|x l IH]; simpl; [done|].
    destruct (passes filter x && matches_search searchTerm x).
    + by apply sublist_skip.
    + by apply sublist_cons.
  - reflexivity.
  - intros searchTerm' Hlower. rewrite !filteredWords_filter.
    apply List.filter_ext. intros w. unfold matches_search. by rewrite Hlower.
Qed.

Lemma levels_are_disjoint w :
  (if is_basic w then 1 else 0) + (if is_inter w then 1 else 0)
  + (if is_adv w then 1 else 0) <= 1.
Proof.
  unfold is_basic, is_inter, is_adv, in_levels.
  generalize (default EmptyString (cefr w)). intros c. cbn [existsb].
  destruct (String.eqb_spec c "A1") as [->|_]; [simpl; lia|].
  destruct (String.eqb_spec c "A2") as [->|_]; [simpl; lia|].
  destruct (String.eqb_spec c "B1") as [->|_]; [simpl; lia|].
  destruct (String.eqb_spec c "B2") as [->|_]; [simpl; lia|].
  destruct (String.eqb_spec c "C1") as [->|_]; [simpl; lia|].
  destruct (String.eqb_spec c "C2") as [->|_]; simpl; lia.
Qed.

(** The counter on each filter tab is the number of words listed
    under that tab when nothing is searched, and the three level
    counters together never exceed the total (a word without a level
    from A1 to C2 is counted in the total only). *)
Theorem stats_count_the_tabs :
  forall (savedWords : list VocabularyItem),
    total (stats savedWords) = length (filteredWords savedWords ALL EmptyString)
    /\ basic (stats savedWords) = length (filteredWords savedWords BASIC EmptyString)
    /\ inter (stats savedWords) = length (filteredWords savedWords INTER EmptyString)
    /\ adv (stats savedWords) = length (filteredWords savedWords ADV EmptyString)
    /\ basic (stats savedWords) + inter (stats savedWords) + adv (stats savedWords)
       <= total (stats savedWords).
Proof.
  intros savedWords. repeat split.
  unfold stats. simpl.
  induction savedWords as [|w l IH]; simpl; [lia|].
  pose proof (levels_are_disjoint w).
  destruct (is_basic w), (is_inter w), (is_adv w); simpl in *; lia.
Qed.

End VocabularyListFacts.

(** ** More on the AI service *)

Section AiServiceMore.
Import Json AiService.

Lemma reply_is_final o reply :
  reply_of o = Some reply -> retryable o = false /\ settled_with o = Resolved reply.
Proof.
  unfold reply_of, retryable, settled_with, busy, failure, reply_of.
  destruct o as [message | status statusText errorMessage [message | c u]]; try done.
  destruct (response_ok status); [|done]. by intros [= <-].
Qed.

(** An outage shorter than the retry budget is invisible to the
    caller: when the first [k] requests meet 429/5xx responses or
    rejected fetches that mention fetch or network, and request [k],
    still within the budget, is answered, the call resolves with that
    answer after exactly [k] waits of two seconds. *)
Theorem transient_outage_is_invisible :
  forall (store : Storage) (net : Network) (retries k : nat) (reply : Reply),
    has_api_key store = true ->
    k <= retries ->
    (forall i, i < k -> transient (net i) = true) ->
    reply_of (net k) = Some reply ->
    callDeepSeek store net retries = (retry_trace k, Resolved reply).
Proof.
  intros store net retries k reply Hkey Hk Hout Hreply.
  destruct (callDeepSeek_with_key store net retries Hkey) as [Hfst Hsnd].
  destruct (attempt_policy net retries 0) as (n & Hn & Htrace & Hbefore & Hlast & Hres).
  cbn [Nat.add] in Hbefore, Hlast, Hres.
  destruct (reply_is_final _ _ Hreply) as [Hfinal Hsettled].
  assert (n = k) as ->.
  { destruct (Nat.lt_trichotomy n k) as [Hlt | [Heq | Hgt]]; [|done|].
    - specialize (Hout n Hlt). apply transient_is_retryable in Hout.
      rewrite Hlast in Hout by lia. discriminate.
    - rewrite Hbefore in Hfinal by done. discriminate. }
  rewrite Hres, Hsettled in Hsnd. rewrite Htrace in Hfst.
  destruct (callDeepSeek store net retries) as [events result].
  simpl in *. by subst.
Qed.

Lemma transient_outage_is_invisible_witness :
  callDeepSeek Examples.with_key Examples.busy_once retries_default
  = (retry_trace 1,
     Resolved {| content := JObj ∅;
                 usage := {| promptTokens := 1; responseTokens := 1; totalTokens := 2 |} |}).
Proof.
  apply (transient_outage_is_invisible Examples.with_key Examples.busy_once
           retries_default 1).
  - reflexivity.
  - unfold retries_default. lia.
  - intros i Hi. assert (i = 0) as -> by lia. reflexivity.
  - reflexivity.
Defined.

(** Whatever the budget, a call makes at most one request more than
    it has retries, waits two seconds before each request but the
    first, and does nothing else. *)
Theorem requests_are_bounded_by_the_budget :
  forall (store : Storage) (net : Network) (retries : nat),
    fst (callDeepSeek store net retries) = []
    \/ exists n, n <= retries /\ fst (callDeepSeek store net retries) = retry_trace n.
Proof.
  intros store net retries. destruct (has_api_key store) eqn:Hkey.
  - right. destruct (callDeepSeek_with_key store net retries Hkey) as [Hfst _].
    destruct (attempt_policy net retries 0) as (n & Hn & Htrace & _).
    exists n. by rewrite Hfst.
  - left. by rewrite callDeepSeek_without_key.
Qed.

(** A rejected call always carries a message to show. *)
Theorem rejection_always_has_a_message :
  forall (store : Storage) (net : Network) (retries : nat) (message : string),
    snd (callDeepSeek store net retries) = Rejected message ->
    message <> EmptyString.
Proof.
  intros store net retries message. destruct (has_api_key store) eqn:Hkey.
  - destruct (callDeepSeek_with_key store net retries Hkey) as [_ ->].
    destruct (snd (attempt net 0 retries)) as [reply | m]; [discriminate|].
    intros [= <-]. unfold final_message. by destruct m.
  - rewrite callDeepSeek_without_key by done. by intros [= <-].
Qed.

Lemma rejection_always_has_a_message_witness :
  "Failed to fetch" <> EmptyString.
Proof.
  apply (rejection_always_has_a_message Examples.with_key Examples.offline
           retries_default).
  reflexivity.
Defined.

(** Without an API key, or with stored prompts that do not parse,
    analysing a text and looking up a word reject without a single
    request. *)
Theorem no_request_without_configuration :
  forall (defaults : PromptConfig) (store : Storage) (net : Network)
         (text word fullContext : string),
    has_api_key store = false
    \/ (exists message, ds_prompts store = Some (PromptsMalformed message)) ->
    (exists message,
        analyzeCustomText defaults store net text = ([], Rejected message))
    /\ (exists message,
          lookupWordContext defaults store net word fullContext = ([], Rejected message)).
Proof.
  intros defaults store net text word fullContext Hconf.
  unfold analyzeCustomText, lookupWordContext, getStoredPrompts.
  destruct (ds_prompts store) as [[p | m]|] eqn:Hprompts.
  - destruct Hconf as [Hkey | [m Hm]]; [|discriminate].
    rewrite callDeepSeek_without_key by done. eauto.
  - eauto.
  - destruct Hconf as [Hkey | [m Hm]]; [|discriminate].
    rewrite callDeepSeek_without_key by done. eauto.
Qed.

Lemma no_request_without_configuration_witness :
  (exists message,
      analyzeCustomText Examples.prompts
        {| ds_api_key := None; ds_prompts := None |} Examples.tampering "A text."
      = ([], Rejected message))
  /\ (exists message,
        lookupWordContext Examples.prompts
          {| ds_api_key := None; ds_prompts := None |} Examples.tampering "word" "A text."
        = ([], Rejected message)).
Proof.
  apply (no_request_without_configuration Examples.prompts
           {| ds_api_key := None; ds_prompts := None |} Examples.tampering
           "A text." "word" "A text.").
  left. reflexivity.
Defined.

(** Whenever the prompts load and the call resolves, a word lookup
    resolves with the fields of the answer, except that [word] is the
    word asked for and [usage] the counters of the call, whatever the
    answer holds under these two names. *)
Theorem lookup_merges_word_and_usage :
  forall (defaults : PromptConfig) (store : Storage) (net : Network)
         (word fullContext : string) (prompts : PromptConfig) (reply : Reply),
    getStoredPrompts defaults store = Resolved prompts ->
    snd (callDeepSeek store net retries_default) = Resolved reply ->
    exists obj,
      snd (lookupWordContext defaults store net word fullContext)
      = Resolved (obj, usage reply)
      /\ obj !! "word" = Some (JStr word)
      /\ obj !! "usage" = Some (usage_object (usage reply))
      /\ (forall key, key <> "word" -> key <> "usage" ->
            obj !! key = spread (content reply) !! key)
      /\ fst (lookupWordContext defaults store net word fullContext)
         = fst (callDeepSeek store net retries_default).
Proof.
  intros defaults store net word fullContext prompts reply Hprompts Hcall.
  unfold lookupWordContext. rewrite Hprompts.
  destruct (callDeepSeek store net retries_default) as [events result].
  simpl in Hcall. subst result. simpl.
  eexists. split; [reflexivity|]. split; [by simplify_map_eq|].
  split; [by simplify_map_eq|]. split; [|done].
  intros key Hword Husage. by rewrite !lookup_insert_ne.
Qed.

Lemma lookup_merges_word_and_usage_witness :
  exists obj,
    snd (lookupWordContext Examples.prompts Examples.with_key Examples.tampering
           "cat" "The cat.")
    = Resolved (obj, usage Examples.tampered_reply)
    /\ obj !! "word" = Some (JStr "cat")
    /\ obj !! "usage" = Some (usage_object (usage Examples.tampered_reply))
    /\ (forall key, key <> "word" -> key <> "usage" ->
          obj !! key = spread (content Examples.tampered_reply) !! key)
    /\ fst (lookupWordContext Examples.prompts Examples.with_key Examples.tampering
              "cat" "The cat.")
       = fst (callDeepSeek Examples.with_key Examples.tampering retries_default).
Proof.
  apply (lookup_merges_word_and_usage Examples.prompts Examples.with_key
           Examples.tampering "cat" "The cat." Examples.prompts
           Examples.tampered_reply);
    reflexivity.
Defined.

(** *** The context snippet *)

Lemma length_append (s t : string) :
  String.length (s ++ t)%string = String.length s + String.length t.
Proof. induction s as [|c s IH]; [done|]. rewrite append_cons. simpl. by rewrite IH. Qed.

Lemma length_substring0 n :
  forall s, String.length (JS.substring0 n s) = Nat.min n (String.length s).
Proof.
  induction n as [|n IH]; intros s; [done|].
  destruct s as [|c s]; [done|]. cbn [JS.substring0 String.length]. by rewrite IH.
Qed.

Lemma substring0_is_prefix n :
  forall s, exists rest, s = (JS.substring0 n s ++ rest)%string.
Proof.
  induction n as [|n IH]; intros s; [by exists s|].
  destruct s as [|c s]; [by exists EmptyString|].
  destruct (IH s) as [rest Hrest]. exists rest.
  cbn [JS.substring0]. rewrite append_cons. by rewrite <- Hrest.
Qed.

(** The context sent with a lookup is the text itself when it has at
    most 500 characters, and otherwise its first 500 characters
    followed by three dots; it never has more than 503 characters. *)
Theorem contextSnippet_is_bounded :
  forall (fullContext : string),
    String.length (contextSnippet fullContext) <= 503
    /\ (String.length fullContext <= 500 -> contextSnippet fullContext = fullContext)
    /\ (500 < String.length fullContext ->
          exists first rest,
            fullContext = (first ++ rest)%string
            /\ String.length first = 500
            /\ contextSnippet fullContext = (first ++ "...")%string).
Proof.
  intros fullContext. unfold contextSnippet.
  destruct (Nat.ltb_spec 500 (String.length fullContext)) as [Hlong | Hshort].
  - split; [|split].
    + rewrite length_append, length_substring0.
      change (String.length "...") with 3. lia.
    + lia.
    + intros _. destruct (substring0_is_prefix 500 fullContext) as [rest Hrest].
      exists (JS.substring0 500 fullContext), rest.
      split; [done|]. split; [|done]. rewrite length_substring0. lia.
  - split; [lia|]. split; [done|lia].
Qed.

(** *** The code fence *)

Lemma trimStart_solid s : InteractiveText.starts_solid s = true -> JS.trimStart s = s.
Proof.
  destruct s as [|c s]; [done|]. simpl. intros Hc%negb_true_iff. by rewrite Hc.
Qed.

Lemma trimEnd_solid s : InteractiveText.ends_solid s = true -> JS.trimEnd s = s.
Proof.
  induction s as [|c s IH]; [done|]. cbn [InteractiveText.ends_solid JS.trimEnd].
  destruct s as [|c' s'].
  - intros Hc%negb_true_iff. simpl. by rewrite Hc.
  - intros Hs. rewrite IH by done. done.
Qed.

Lemma trim_solid s :
  InteractiveText.starts_solid s = true -> InteractiveText.ends_solid s = true ->
  JS.trim s = s.
Proof.
  intros Hstart Hend. unfold JS.trim. rewrite trimStart_solid by done.
  by apply trimEnd_solid.
Qed.

Lemma ends_solid_append (s t : string) :
  t <> EmptyString ->
  InteractiveText.ends_solid (s ++ t)%string = InteractiveText.ends_solid t.
Proof.
  intros Ht. induction s as [|c s IH]; [done|]. rewrite append_cons.
  cbn [InteractiveText.ends_solid]. rewrite IH.
  destruct (s ++ t)%string eqn:Hst; [|done].
  destruct s; [by change (t = EmptyString) in Hst|].
  rewrite append_cons in Hst. discriminate.
Qed.

Lemma trimEnd_empty_or_solid s :
  JS.trimEnd s = EmptyString \/ InteractiveText.ends_solid (JS.trimEnd s) = true.
Proof.
  induction s as [|c s IH]; [by left|]. cbn [JS.trimEnd].
  destruct (JS.trimEnd s) as [|c' t] eqn:Ht.
  - destruct (JS.is_space c) eqn:Hc; [by left|]. right. simpl. by rewrite Hc.
  - right. destruct IH as [|IH]; [discriminate|]. done.
Qed.

Lemma trimStart_empty_or_solid s :
  JS.trimStart s = EmptyString \/ InteractiveText.starts_solid (JS.trimStart s) = true.
Proof.
  induction s as [|c s IH]; [by left|]. simpl.
  destruct (JS.is_space c) eqn:Hc; [done|]. right. simpl. by rewrite Hc.
Qed.

Lemma trimEnd_keeps_start s :
  InteractiveText.starts_solid s = true ->
  InteractiveText.starts_solid (JS.trimEnd s) = true.
Proof.
  destruct s as [|c s]; [done|]. cbn [JS.trimEnd InteractiveText.starts_solid].
  intros Hc. destruct (JS.trimEnd s); [|done].
  apply negb_true_iff in Hc. rewrite Hc. simpl. by rewrite Hc.
Qed.

(** Trimming leaves nothing to trim. *)
Lemma trim_idempotent s : JS.trim (JS.trim s) = JS.trim s.
Proof.
  unfold JS.trim at 2 3.
  destruct (trimStart_empty_or_solid s) as [-> | Hstart]; [done|].
  destruct (trimEnd_empty_or_solid (JS.trimStart s)) as [-> | Hend]; [done|].
  apply trim_solid; [by apply trimEnd_keeps_start|done].
Qed.

Lemma startsWith_append p s : JS.startsWith p (p ++ s)%string = true.
Proof.
  induction p as [|c p IH]; [done|]. rewrite append_cons. simpl.
  by rewrite Ascii.eqb_refl.
Qed.

Lemma strip_prefix_append p s : strip_prefix p (p ++ s)%string = Some s.
Proof.
  induction p as [|c p IH]; [done|]. rewrite append_cons. simpl.
  by rewrite Ascii.eqb_refl.
Qed.

Lemma strip_suffix_append p s : strip_suffix p (s ++ p)%string = Some s.
Proof.
  induction s as [|c s IH].
  - change (EmptyString ++ p)%string with p.
    destruct p; cbn [strip_suffix]; by rewrite String.eqb_refl.
  - rewrite append_cons.
    assert (Hne : String.eqb (String c (s ++ p)) p = false).
    { apply String.eqb_neq. intros Heq.
      apply (f_equal String.length) in Heq. simpl in Heq.
      rewrite length_append in Heq. lia. }
    cbn [strip_suffix]. rewrite Hne, IH. done.
Qed.

Lemma startsWith_cons a p b s :
  JS.startsWith (String a p) (String b s) = Ascii.eqb a b && JS.startsWith p s.
Proof. reflexivity. Qed.

Lemma startsWith_shorter p q s :
  JS.startsWith (p ++ q)%string s = true -> JS.startsWith p s = true.
Proof.
  revert s. induction p as [|c p IH]; intros s; [done|].
  rewrite append_cons. destruct s as [|b s]; [done|].
  rewrite !startsWith_cons. intros [Hc Hp]%andb_true_iff.
  rewrite Hc. by apply IH.
Qed.

Lemma tag_not_before_fence body :
  JS.startsWith "json" body = false ->
  JS.startsWith "json" (body ++ "```")%string = false.
Proof.
  destruct body as [|a [|b [|c [|d body]]]]; rewrite ?append_cons;
    change (EmptyString ++ "```")%string with "```";
    rewrite ?startsWith_cons;
    repeat match goal with
           | |- context [Ascii.eqb ?x ?y] => is_var y; destruct (Ascii.eqb x y)
           end; try done.
Qed.

(** An answer wrapped in a code fence, with or without the json tag,
    is unwrapped and trimmed; an answer that does not start with a
    fence is only trimmed; and cleaning twice changes nothing more for
    an answer without a fence. *)
Theorem cleanJsonOutput_unwraps_the_fence :
  forall (body : string),
    cleanJsonOutput ("```json" ++ body ++ "```") = JS.trim body
    /\ (JS.startsWith "json" body = false ->
          cleanJsonOutput ("```" ++ body ++ "```") = JS.trim body)
    /\ (JS.startsWith "```" (JS.trim body) = false ->
          cleanJsonOutput body = JS.trim body
          /\ cleanJsonOutput (cleanJsonOutput body) = cleanJsonOutput body).
Proof.
  intros body. split; [|split].
  - unfold cleanJsonOutput.
    rewrite (trim_solid ("```json" ++ body ++ "```"));
      [|done|by rewrite !append_assoc, ends_solid_append].
    rewrite startsWith_append. unfold without_prefix.
    rewrite strip_prefix_append. unfold without_suffix, default, from_option, id.
    by rewrite strip_suffix_append.
  - intros Htag. unfold cleanJsonOutput.
    rewrite (trim_solid ("```" ++ body ++ "```"));
      [|done|by rewrite !append_assoc, ends_solid_append].
    assert (JS.startsWith "```json" ("```" ++ body ++ "```") = false) as ->.
    { change (JS.startsWith "json" (body ++ "```") = false).
      by apply tag_not_before_fence. }
    rewrite startsWith_append. unfold without_prefix.
    rewrite strip_prefix_append. unfold without_suffix, default, from_option, id.
    by rewrite strip_suffix_append.
  - intros Hplain.
    assert (Hjson : JS.startsWith "```json" (JS.trim body) = false).
    { apply not_true_is_false. intros Hfence.
      apply (startsWith_shorter "```" "json") in Hfence. congruence. }
    assert (Hclean : cleanJsonOutput body = JS.trim body).
    { unfold cleanJsonOutput. rewrite Hjson, Hplain. apply trim_idempotent. }
    split; [done|]. rewrite Hclean. unfold cleanJsonOutput.
    rewrite trim_idempotent, Hjson, Hplain. apply trim_idempotent.
Qed.

Lemma cleanJsonOutput_unwraps_the_fence_witness :
  cleanJsonOutput "  { }  " = JS.trim "  { }  ".
Proof.
  refine (proj1 (proj2 (proj2 (cleanJsonOutput_unwraps_the_fence "  { }  ")) _)).
  reflexivity.
Defined.

End AiServiceMore.

(** ** More on the tokenizer and annotator *)

Section AnnotatorMore.
Import Json AiService InteractiveText.

(** *** The tokens of a segment *)

Lemma glue_app (a b : list string) : glue (a ++ b) = (glue a ++ glue b)%string.
Proof.
  induction a as [|x a IH]; [done|]. simpl. by rewrite IH, append_assoc.
Qed.

Lemma split_runs_glue s :
  forall inWord cur, glue (split_runs inWord cur s) = (cur ++ s)%string.
Proof.
  induction s as [|c s IH]; intros inWord cur; cbn [split_runs].
  - destruct inWord; simpl; by rewrite ?append_empty_r.
  - destruct (Bool.eqb (is_word_char c) inWord).
    + rewrite IH. unfold snoc. by rewrite <- append_assoc.
    + cbn [glue]. by rewrite IH.
Qed.

Lemma all_chars_snoc p s c :
  all_chars p (snoc s c) = all_chars p s && p c.
Proof.
  unfold snoc. induction s as [|a s IH].
  - change (EmptyString ++ String c EmptyString)%string with (String c EmptyString).
    simpl. by rewrite andb_true_r.
  - rewrite append_cons. simpl. by rewrite IH, andb_assoc.
Qed.

Lemma word_run_snoc s c :
  word_run s = true -> is_word_char c = true -> word_run (snoc s c) = true.
Proof.
  intros Hs Hc. destruct s as [|a s]; [done|].
  unfold word_run in *. unfold snoc. rewrite append_cons.
  change (all_chars is_word_char (snoc (String a s) c) = true).
  by rewrite all_chars_snoc, Hs, Hc.
Qed.

Lemma split_runs_alternates s :
  forall (inWord : bool) (cur : string),
    (if inWord then word_run cur else gap_run cur) = true ->
    alternates inWord (split_runs inWord cur s) = true
    /\ Nat.odd (length (split_runs inWord cur s)) = negb inWord.
Proof.
  induction s as [|c s IH]; intros inWord cur Hcur; cbn [split_runs].
  - destruct inWord; simpl; rewrite Hcur; done.
  - destruct (is_word_char c) eqn:Hc, inWord; cbn [Bool.eqb].
    + apply IH. by apply word_run_snoc.
    + destruct (IH true (String c EmptyString)) as [Halt Hodd].
      { simpl. by rewrite Hc. }
      cbn [alternates length negb]. rewrite Hcur, Halt.
      split; [done|]. rewrite Nat.odd_succ, <- Nat.negb_odd, Hodd. done.
    + destruct (IH false (String c EmptyString)) as [Halt Hodd].
      { unfold gap_run. simpl. by rewrite Hc. }
      cbn [alternates length negb]. rewrite Hcur, Halt.
      split; [done|]. rewrite Nat.odd_succ, <- Nat.negb_odd, Hodd. done.
    + apply IH. unfold gap_run in *. by rewrite all_chars_snoc, Hcur, Hc.
Qed.

(** The tokens of a segment, put together again, are the segment;
    they are an odd number of runs, gaps without any word character
    alternating with non-empty runs of word characters, a gap first
    and a gap last. *)
Theorem tokens_of_splits_without_loss :
  forall (segment : string),
    glue (tokens_of segment) = segment
    /\ alternates false (tokens_of segment) = true
    /\ Nat.odd (length (tokens_of segment)) = true.
Proof.
  intros segment. unfold tokens_of. split; [apply split_runs_glue|].
  by apply (split_runs_alternates segment false EmptyString).
Qed.

(** *** The elements *)

Lemma find_phrase_range m token following len :
  find_phrase m token following = Some len ->
  2 <= len <= 4 /\ has m (phraseStr len token following) = true.
Proof.
  unfold find_phrase.
  destruct (has m (phraseStr 4 token following)) eqn:H4; [intros [= <-]; split; [lia|done]|].
  destruct (has m (phraseStr 3 token following)) eqn:H3; [intros [= <-]; split; [lia|done]|].
  destruct (has m (phraseStr 2 token following)) eqn:H2; [intros [= <-]; split; [lia|done]|].
  discriminate.
Qed.

Lemma display_glue toks :
  forall need,
    fst (display need toks) = glue (take (snd (display need toks)) toks)
    /\ snd (display need toks) <= length toks.
Proof.
  induction toks as [|t others IH]; intros need.
  - destruct need; simpl; split; (done || lia).
  - destruct need as [|n]; [simpl; split; [done|lia]|].
    cbn [display fst snd].
    destruct (IH (if has_alnum t then n else S n)) as [Hfst Hsnd].
    rewrite Hfst. simpl. split; [done|lia].
Qed.

Lemma render_glue m toks :
  forall i skip, glue (map shown (render m i skip toks)) = glue (drop skip toks).
Proof.
  induction toks as [|t others IH]; intros i skip; [by destruct skip|].
  cbn [render]. destruct skip as [|k]; [|by rewrite IH].
  rewrite drop_0.
  destruct (blank t); [simpl; by rewrite IH|].
  destruct (has_alnum t) eqn:Hword; cbn [negb]; [|simpl; by rewrite IH].
  destruct (find_phrase m t others) as [len|] eqn:Hphrase; [|simpl; by rewrite IH].
  apply find_phrase_range in Hphrase as [Hlen _].
  destruct len as [|n]; [lia|].
  cbn [map shown glue]. rewrite IH. cbn [display fst snd].
  destruct (display_glue others (if has_alnum t then n else S n)) as [Hfst _].
  rewrite Hfst, Nat.sub_succ, Nat.sub_0_r, <- append_assoc, <- glue_app.
  by rewrite take_drop.
Qed.

(** Rendering loses nothing and adds nothing: the texts of the
    elements of a segment, one after the other, are the segment. *)
Theorem rendering_shows_the_whole_segment :
  forall (vocabulary : list VocabularyItem) (segment : string),
    glue (map shown (renderTextSegment vocabulary segment)) = segment.
Proof.
  intros vocabulary segment. unfold renderTextSegment.
  rewrite render_glue, drop_0. apply split_runs_glue.
Qed.

(** What stands behind each element: the token at its key, and the
    test that chose its kind. *)
Lemma render_element m toks :
  forall i skip e,
    e ∈ render m i skip toks ->
    exists token following,
      i <= key_of e
      /\ drop (key_of e - i) toks = token :: following
      /\ match e with
         | Spacer _ t => t = token /\ blank token = true
         | Punct _ t => t = token /\ blank token = false /\ has_alnum token = false
         | Phrase _ p d =>
             has_alnum token = true
             /\ exists len,
                  find_phrase m token following = Some len
                  /\ p = phraseStr len token following
                  /\ d = fst (display len (token :: following))
         | Word _ t v =>
             t = token /\ has_alnum token = true
             /\ find_phrase m token following = None
             /\ v = has m (JS.toLowerCase token)
         end.
Proof.
  induction toks as [|t others IH]; intros i skip e Hin; cbn [render] in Hin.
  - by apply not_elem_of_nil in Hin.
  - assert (Hlater : forall skip',
              e ∈ render m (S i) skip' others ->
              exists token following,
                i <= key_of e
                /\ drop (key_of e - i) (t :: others) = token :: following
                /\ match e with
                   | Spacer _ t => t = token /\ blank token = true
                   | Punct _ t => t = token /\ blank token = false /\ has_alnum token = false
                   | Phrase _ p d =>
                       has_alnum token = true
                       /\ exists len,
                            find_phrase m token following = Some len
                            /\ p = phraseStr len token following
                            /\ d = fst (display len (token :: following))
                   | Word _ t v =>
                       t = token /\ has_alnum token = true
                       /\ find_phrase m token following = None
                       /\ v = has m (JS.toLowerCase token)
                   end).
    { intros skip' Hin'.
      destruct (IH _ _ _ Hin') as (token & following & Hle & Hdrop & Hkind).
      exists token, following. split; [lia|]. split; [|done].
      by replace (key_of e - i) with (S (key_of e - S i)) by lia. }
    destruct skip as [|k]; [|by apply Hlater in Hin].
    destruct (blank t) eqn:Hblank.
    { apply elem_of_cons in Hin as [-> | Hin]; [|by apply Hlater in Hin].
      exists t, others. simpl. by rewrite Nat.sub_diag. }
    destruct (has_alnum t) eqn:Hword; cbn [negb] in Hin.
    2:{ apply elem_of_cons in Hin as [-> | Hin]; [|by apply Hlater in Hin].
        exists t, others. simpl. by rewrite Nat.sub_diag. }
    destruct (find_phrase m t others) as [len|] eqn:Hphrase.
    + apply elem_of_cons in Hin as [-> | Hin]; [|by apply Hlater in Hin].
      exists t, others. simpl. rewrite Nat.sub_diag.
      split; [done|]. split; [done|]. split; [done|]. by exists len.
    + apply elem_of_cons in Hin as [-> | Hin]; [|by apply Hlater in Hin].
      exists t, others. simpl. by rewrite Nat.sub_diag.
Qed.

Lemma render_keys_distinct m toks :
  forall i skip, NoDup (map key_of (render m i skip toks)).
Proof.
  induction toks as [|t others IH]; intros i skip; cbn [render]; [apply NoDup_nil_2|].
  assert (Hfresh : forall skip', i ∉ map key_of (render m (S i) skip' others)).
  { intros skip' Hin. apply list_elem_of_fmap in Hin as (e & He & Hin).
    destruct (render_element _ _ _ _ _ Hin) as (_ & _ & Hle & _). lia. }
  destruct skip as [|k]; [|apply IH].
  destruct (blank t); [simpl; apply NoDup_cons; by split|].
  destruct (has_alnum t); cbn [negb]; [|simpl; apply NoDup_cons; by split].
  destruct (find_phrase m t others); simpl; apply NoDup_cons; by split.
Qed.

(** Every element sits on a token of the segment, at the index that
    is its key, and no two elements of a segment have the same key. *)
Theorem elements_have_distinct_keys :
  forall (vocabulary : list VocabularyItem) (segment : string),
    NoDup (map key_of (renderTextSegment vocabulary segment))
    /\ forall e, e ∈ renderTextSegment vocabulary segment ->
         key_of e < length (tokens_of segment).
Proof.
  intros vocabulary segment. split; [apply render_keys_distinct|].
  intros e Hin.
  destruct (render_element _ _ _ _ _ Hin) as (token & following & _ & Hdrop & _).
  rewrite Nat.sub_0_r in Hdrop.
  destruct (decide (key_of e < length (tokens_of segment))) as [|Hge]; [done|].
  rewrite drop_ge in Hdrop by lia. discriminate.
Qed.

(** *** The vocabulary index *)

Lemma lower_char_idempotent c : JS.lower_char (JS.lower_char c) = JS.lower_char c.
Proof. destruct c as [[] [] [] [] [] [] [] []]; vm_compute; reflexivity. Qed.

Lemma toLowerCase_idempotent s : JS.toLowerCase (JS.toLowerCase s) = JS.toLowerCase s.
Proof.
  induction s as [|c s IH]; [done|]. simpl. by rewrite lower_char_idempotent, IH.
Qed.

Lemma vocabMap_entries vocabulary :
  forall (m : gmap string VocabularyItem) key item,
    fold_left (fun m item => <[JS.toLowerCase (word item) := item]> m) vocabulary m
      !! key = Some item ->
    m !! key = Some item
    \/ (item ∈ vocabulary /\ JS.toLowerCase (word item) = key).
Proof.
  induction vocabulary as [|v vs IH]; intros m key item Hlook; simpl in Hlook; [by left|].
  apply IH in Hlook as [Hlook | [Hin Hkey]].
  - destruct (decide (JS.toLowerCase (word v) = key)) as [Heq | Hne].
    + subst key. rewrite lookup_insert_eq in Hlook. injection Hlook as <-.
      right. split; [left|done].
    + rewrite lookup_insert_ne in Hlook by done. by left.
  - right. split; [by right|done].
Qed.

(** The index answers a key only with an entry of the vocabulary
    whose lower-cased word is the key, so only lower-case keys are
    ever found; and of several entries with the same lower-cased word
    the last one is kept. *)
Theorem vocabMap_holds_the_last_entry :
  forall (vocabulary : list VocabularyItem) (key : string) (item : VocabularyItem),
    (vocabMap vocabulary !! key = Some item ->
       item ∈ vocabulary /\ JS.toLowerCase (word item) = key
       /\ JS.toLowerCase key = key)
    /\ vocabMap (vocabulary ++ [item]) !! JS.toLowerCase (word item) = Some item.
Proof.
  intros vocabulary key item. split.
  - intros Hlook. apply vocabMap_entries in Hlook as [Hlook | [Hin Hkey]].
    + by rewrite lookup_empty in Hlook.
    + split; [done|]. split; [done|]. subst key. apply toLowerCase_idempotent.
  - unfold vocabMap. rewrite fold_left_app. simpl. apply lookup_insert_eq.
Qed.

(** *** A click on a highlighted element *)

Lemma lower_char_space c : JS.is_space (JS.lower_char c) = JS.is_space c.
Proof. destruct c as [[] [] [] [] [] [] [] []]; vm_compute; reflexivity. Qed.

Lemma phrase_char_not_stripped c :
  phrase_char c = true -> is_stripped (JS.lower_char c) = false.
Proof. destruct c as [[] [] [] [] [] [] [] []]; vm_compute; congruence. Qed.

Lemma word_char_not_space c : is_word_char c = true -> JS.is_space c = false.
Proof. destruct c as [[] [] [] [] [] [] [] []]; vm_compute; congruence. Qed.

Lemma word_char_phrase_char c : is_word_char c = true -> phrase_char c = true.
Proof. unfold phrase_char. by intros ->. Qed.

Lemma alnum_word_char c : is_alnum c = true -> is_word_char c = true.
Proof. destruct c as [[] [] [] [] [] [] [] []]; vm_compute; congruence. Qed.

Lemma all_chars_append p (s t : string) :
  all_chars p (s ++ t)%string = all_chars p s && all_chars p t.
Proof.
  induction s as [|c s IH]; [done|]. rewrite append_cons. simpl.
  by rewrite IH, andb_assoc.
Qed.

Lemma all_chars_weaken (p q : ascii -> bool) s :
  (forall c, p c = true -> q c = true) -> all_chars p s = true -> all_chars q s = true.
Proof.
  intros Hpq. induction s as [|c s IH]; [done|]. simpl.
  intros [Hc Hs]%andb_true_iff. by rewrite (Hpq c Hc), IH.
Qed.

Lemma starts_solid_lower s : starts_solid (JS.toLowerCase s) = starts_solid s.
Proof. destruct s as [|c s]; [done|]. simpl. by rewrite lower_char_space. Qed.

Lemma ends_solid_lower s : ends_solid (JS.toLowerCase s) = ends_solid s.
Proof.
  induction s as [|c s IH]; [done|]. destruct s as [|c' s'].
  - simpl. by rewrite lower_char_space.
  - change (ends_solid (JS.toLowerCase (String c' s')) = ends_solid (String c' s')).
    exact IH.
Qed.

Lemma keep_lower_phrase s :
  all_chars phrase_char s = true ->
  JS.keep_chars (fun c => negb (is_stripped c)) (JS.toLowerCase s) = JS.toLowerCase s.
Proof.
  induction s as [|c s IH]; [done|]. simpl. intros [Hc Hs]%andb_true_iff.
  by rewrite (phrase_char_not_stripped c Hc), IH.
Qed.

(** A string made of word characters and single spaces that starts
    and ends with a non-blank character is, once lower-cased, what
    [cleanText] makes of it. *)
Lemma cleanText_of_clean s :
  all_chars phrase_char s = true -> starts_solid s = true -> ends_solid s = true ->
  cleanText (JS.toLowerCase s) = JS.toLowerCase s
  /\ cleanText s = JS.toLowerCase s.
Proof.
  intros Hchars Hstart Hend. unfold cleanText. split.
  - rewrite trim_solid by (by rewrite ?starts_solid_lower, ?ends_solid_lower).
    by rewrite keep_lower_phrase, toLowerCase_idempotent.
  - rewrite trim_solid by done.
    assert (Hkeep : JS.keep_chars (fun c => negb (is_stripped c)) s = s).
    { clear Hstart Hend. induction s as [|c s IH]; [done|]. simpl in *.
      apply andb_true_iff in Hchars as [Hc Hs].
      assert (is_stripped c = false) as ->.
      { revert Hc. destruct c as [[] [] [] [] [] [] [] []]; vm_compute; congruence. }
      simpl. by rewrite IH. }
    by rewrite Hkeep.
Qed.

Lemma word_run_solid t :
  word_run t = true ->
  all_chars phrase_char t = true /\ starts_solid t = true /\ ends_solid t = true.
Proof.
  unfold word_run. destruct t as [|c t]; [done|]. intros Hrun.
  split; [by apply (all_chars_weaken is_word_char), Hrun; apply word_char_phrase_char|].
  split.
  - simpl in *. apply andb_true_iff in Hrun as [Hc _].
    by rewrite (word_char_not_space c Hc).
  - revert c Hrun. induction t as [|c' t IH]; intros c Hrun.
    + simpl in *. apply andb_true_iff in Hrun as [Hc _].
      by rewrite (word_char_not_space c Hc).
    + change (ends_solid (String c' t) = true). apply IH.
      simpl in Hrun. by apply andb_true_iff in Hrun as [_ Hrun].
Qed.

Lemma join_solid parts :
  parts <> [] ->
  Forall (fun t => word_run t = true) parts ->
  all_chars phrase_char (JS.join " " parts) = true
  /\ starts_solid (JS.join " " parts) = true
  /\ ends_solid (JS.join " " parts) = true.
Proof.
  induction parts as [|t ps IH]; [done|]. intros _ Hall.
  apply Forall_cons in Hall as [Ht Hps].
  destruct (word_run_solid t Ht) as (Hchars & Hstart & Hend).
  destruct ps as [|t' ps']; [done|].
  destruct IH as (Hchars' & Hstart' & Hend'); [done|done|].
  change (JS.join " " (t :: t' :: ps'))
    with (t ++ " " ++ JS.join " " (t' :: ps'))%string.
  split; [|split].
  - rewrite !all_chars_append, Hchars, Hchars'. done.
  - destruct t; [done|]. by rewrite append_cons.
  - rewrite append_assoc, ends_solid_append; [done|].
    by destruct (JS.join " " (t' :: ps')).
Qed.

Lemma alternates_word_tokens toks :
  forall inWord t,
    alternates inWord toks = true -> t ∈ toks -> has_alnum t = true -> word_run t = true.
Proof.
  induction toks as [|x toks IH]; intros inWord t Halt Hin Hword.
  - by apply not_elem_of_nil in Hin.
  - simpl in Halt. apply andb_true_iff in Halt as [Hx Halt].
    apply elem_of_cons in Hin as [-> | Hin]; [|by apply (IH (negb inWord))].
    destruct inWord; [done|]. exfalso. clear -Hx Hword.
    unfold gap_run, has_alnum in *. induction x as [|c x IH]; [done|].
    simpl in *. apply andb_true_iff in Hx as [Hc Hx].
    apply orb_true_iff in Hword as [Ha | Hword]; [|by apply IH].
    apply alnum_word_char in Ha. rewrite Ha in Hc. done.
Qed.

Lemma collect_word_tokens following :
  forall need t, t ∈ collect need following -> t ∈ following /\ has_alnum t = true.
Proof.
  induction following as [|x following IH]; intros need t Hin.
  - destruct need; by apply not_elem_of_nil in Hin.
  - destruct need as [|n]; [by apply not_elem_of_nil in Hin|].
    cbn [collect] in Hin. destruct (has_alnum x) eqn:Hx.
    + apply elem_of_cons in Hin as [-> | Hin]; [split; [left|done]|].
      apply IH in Hin as [Hin Ht]. split; [by right|done].
    + apply IH in Hin as [Hin Ht]. split; [by right|done].
Qed.

Lemma has_lookup (m : gmap string VocabularyItem) key :
  has m key = true -> exists item, m !! key = Some item.
Proof. unfold has. intros H%bool_decide_eq_true. by destruct H as [item ->]; exists item. Qed.

(** A click on a highlighted word or phrase is answered from the
    vocabulary: whatever the state of the network and of the storage,
    the popover shows the entry of the vocabulary whose lower-cased
    word is the text clicked, lower-cased, with its own context when
    it has one and with the sentence found in the text otherwise. *)
Theorem click_on_highlight_is_answered_from_the_vocabulary :
  forall (defaults : PromptConfig) (store : Storage) (net : Network)
         (reportsUsage : bool) (vocabulary : list VocabularyItem)
         (text segment : string) (before : Popover)
         (e : Element) (clickedText : string),
    e ∈ renderTextSegment vocabulary segment ->
    highlighted e = true ->
    clicked e = Some clickedText ->
    exists item,
      item ∈ vocabulary
      /\ JS.toLowerCase (word item) = JS.toLowerCase clickedText
      /\ handleWordClick defaults store net reportsUsage vocabulary text before clickedText
         = Resolved
             ({| selectedWord :=
                   Some (ShownItem
                           (with_context item
                              (context_or (context item) (findSentence text clickedText))));
                 loadingWord := loadingWord before |}, None).
Proof.
  intros defaults store net reportsUsage vocabulary text segment before e clickedText
    Hin Hhigh Hclick.
  destruct (render_element _ _ _ _ _ Hin) as (token & following & _ & Hdrop & Hkind).
  rewrite Nat.sub_0_r in Hdrop.
  assert (Halt : alternates false (tokens_of segment) = true)
    by (by apply (split_runs_alternates segment false EmptyString)).
  assert (Htoks : forall t, t ∈ token :: following -> t ∈ tokens_of segment).
  { intros t Ht. rewrite <- Hdrop in Ht.
    apply list_elem_of_lookup in Ht as [j Hj]. rewrite lookup_drop in Hj.
    by apply list_elem_of_lookup_2 in Hj. }
  assert (Hcached : forall txt,
            has (vocabMap vocabulary) (JS.toLowerCase txt) = true ->
            cleanText txt = JS.toLowerCase txt ->
            exists item,
              item ∈ vocabulary
              /\ JS.toLowerCase (word item) = JS.toLowerCase txt
              /\ handleWordClick defaults store net reportsUsage vocabulary text before txt
                 = Resolved
                     ({| selectedWord :=
                           Some (ShownItem
                                   (with_context item
                                      (context_or (context item) (findSentence text txt))));
                         loadingWord := loadingWord before |}, None)).
  { intros txt Hhas Hclean. apply has_lookup in Hhas as [item Hitem].
    exists item.
    destruct (vocabMap_entries vocabulary ∅ _ item Hitem) as [Hempty | [Hmem Hkey]];
      [by rewrite lookup_empty in Hempty|].
    split; [done|]. split; [done|].
    unfold handleWordClick. by rewrite Hclean, Hitem. }
  destruct e as [key t | key t | key p d | key t v]; try discriminate.
  - injection Hclick as <-.
    destruct Hkind as (Hword & len & Hphrase & -> & _).
    apply find_phrase_range in Hphrase as [_ Hhas].
    assert (Hparts : Forall (fun t => word_run t = true)
                       (token :: collect (len - 1) following)).
    { apply Forall_forall. intros t Ht.
      apply elem_of_cons in Ht as [-> | Ht].
      - apply (alternates_word_tokens (tokens_of segment) false); [done| |done]. apply Htoks. left.
      - apply collect_word_tokens in Ht as [Ht Hw].
        apply (alternates_word_tokens (tokens_of segment) false); [done| |done]. apply Htoks. by right. }
    destruct (join_solid (token :: collect (len - 1) following))
      as (Hchars & Hstart & Hend); [done|done|].
    destruct (cleanText_of_clean _ Hchars Hstart Hend) as [Hclean _].
    unfold phraseStr in *. apply Hcached; by rewrite toLowerCase_idempotent.
  - injection Hclick as <-. simpl in Hhigh. subst v.
    destruct Hkind as (-> & Hword & _ & Hhas). symmetry in Hhas.
    assert (Hrun : word_run token = true).
    { apply (alternates_word_tokens (tokens_of segment) false token); [done| |done]. apply Htoks. left. }
    destruct (word_run_solid token Hrun) as (Hchars & Hstart & Hend).
    destruct (cleanText_of_clean _ Hchars Hstart Hend) as [_ Hclean].
    by apply Hcached.
Qed.

Lemma click_on_highlight_is_answered_from_the_vocabulary_witness :
  exists item,
    item ∈ [Examples.entry "sat on"]
    /\ JS.toLowerCase (word item) = JS.toLowerCase "sat on"
    /\ handleWordClick Examples.prompts Examples.with_key Examples.offline true
         [Examples.entry "sat on"] "The cat sat on the mat. It was happy."
         {| selectedWord := None; loadingWord := None |} "sat on"
       = Resolved
           ({| selectedWord :=
                 Some (ShownItem
                         (with_context item
                            (context_or (context item)
                               (findSentence "The cat sat on the mat. It was happy."
                                  "sat on"))));
               loadingWord := None |}, None).
Proof.
  apply (click_on_highlight_is_answered_from_the_vocabulary
           Examples.prompts Examples.with_key Examples.offline true
           [Examples.entry "sat on"] "The cat sat on the mat. It was happy."
           "The cat sat on the mat. It was happy."
           {| selectedWord := None; loadingWord := None |}
           (Phrase 5 "sat on" "sat on") "sat on").
  - rewrite scenario_sat_on. set_solver.
  - reflexivity.
  - reflexivity.
Defined.

(** Only vocabulary is highlighted: a phrase element stands for an
    entry whose lower-cased word is the phrase, and a word element is
    marked as vocabulary exactly when some entry's lower-cased word is
    the token, lower-cased; the other elements are blank tokens and
    tokens without a letter or digit. *)
Theorem only_vocabulary_is_highlighted :
  forall (vocabulary : list VocabularyItem) (segment : string) (e : Element),
    e ∈ renderTextSegment vocabulary segment ->
    match e with
    | Spacer _ t => blank t = true
    | Punct _ t => blank t = false /\ has_alnum t = false
    | Phrase _ p _ =>
        exists item, item ∈ vocabulary /\ JS.toLowerCase (word item) = p
    | Word _ t v =>
        has_alnum t = true
        /\ (v = true <->
            exists item, item ∈ vocabulary
                         /\ JS.toLowerCase (word item) = JS.toLowerCase t)
    end.
Proof.
  intros vocabulary segment e Hin.
  destruct (render_element _ _ _ _ _ Hin) as (token & following & _ & Hdrop & Hkind).
  destruct e as [key t | key t | key p d | key t v].
  - by destruct Hkind as [-> Hblank].
  - by destruct Hkind as (-> & Hblank & Hword).
  - destruct Hkind as (Hword & len & Hphrase & -> & ->).
    apply find_phrase_range in Hphrase as [Hlen Hhas]. by apply vocabMap_has.
  - destruct Hkind as (-> & Hword & _ & ->). split; [done|]. apply vocabMap_has.
Qed.

Lemma only_vocabulary_is_highlighted_witness :
  exists item,
    item ∈ [Examples.entry "sat on"] /\ JS.toLowerCase (word item) = "sat on".
Proof.
  apply (only_vocabulary_is_highlighted [Examples.entry "sat on"]
           "The cat sat on the mat. It was happy." (Phrase 5 "sat on" "sat on")).
  rewrite scenario_sat_on. set_solver.
Defined.

(** *** Paragraphs *)

Lemma join_cons sep p q ps :
  JS.join sep (p :: q :: ps) = (p ++ sep ++ JS.join sep (q :: ps))%string.
Proof. reflexivity. Qed.

Lemma split_lines_shape s :
  forall cur, exists first others, split_lines cur s = first :: others.
Proof.
  induction s as [|c s IH]; intros cur; cbn [split_lines]; [by eexists _, _|].
  destruct (JS.code c =? 10)%nat; [by eexists _, _|]. apply IH.
Qed.

Lemma split_lines_join s :
  forall cur,
    JS.join (String "010"%char EmptyString) (split_lines cur s) = (cur ++ s)%string.
Proof.
  induction s as [|c s IH]; intros cur; cbn [split_lines].
  - simpl. by rewrite append_empty_r.
  - destruct (Nat.eqb_spec (JS.code c) 10) as [Hc | Hc].
    + destruct (split_lines_shape s EmptyString) as (first & others & Hshape).
      pose proof (IH EmptyString) as Hrest. rewrite Hshape in *.
      rewrite join_cons, Hrest.
      assert (c = "010"%char) as ->.
      { unfold JS.code in Hc. rewrite <- (ascii_nat_embedding c), Hc. reflexivity. }
      done.
    + rewrite IH. unfold snoc. by rewrite <- append_assoc.
Qed.

Lemma any_char_snoc p s c : JS.any_char p (snoc s c) = JS.any_char p s || p c.
Proof.
  unfold snoc. induction s as [|a s IH].
  - change (EmptyString ++ String c EmptyString)%string with (String c EmptyString).
    simpl. by rewrite orb_false_r.
  - rewrite append_cons. simpl. by rewrite IH, orb_assoc.
Qed.

Lemma split_lines_no_feed s :
  forall cur,
    JS.any_char (fun c => (JS.code c =? 10)%nat) cur = false ->
    Forall (fun segment => JS.any_char (fun c => (JS.code c =? 10)%nat) segment = false)
      (split_lines cur s).
Proof.
  induction s as [|c s IH]; intros cur Hcur; cbn [split_lines].
  - by apply Forall_singleton.
  - destruct (JS.code c =? 10)%nat eqn:Hc.
    + apply Forall_cons. split; [done|]. by apply IH.
    + apply IH. by rewrite any_char_snoc, Hcur, Hc.
Qed.

(** In paragraph mode the segments are the lines of the text: joined
    again with line feeds they are the text, and none of them holds a
    line feed. *)
Theorem paragraphs_are_the_lines :
  forall (text : string),
    JS.join (String "010"%char EmptyString) (segments PARAGRAPH text) = text
    /\ Forall (fun segment => JS.any_char (fun c => (JS.code c =? 10)%nat) segment = false)
         (segments PARAGRAPH text).
Proof.
  intros text. split.
  - apply (split_lines_join text EmptyString).
  - by apply split_lines_no_feed.
Qed.

End AnnotatorMore.

(** ** More on the lookup dispatcher *)

Section LookupMore.
Import Json AiService InteractiveText.

Lemma lookup_resolved defaults store net word fullContext obj used :
  snd (lookupWordContext defaults store net word fullContext) = Resolved (obj, used) ->
  obj !! "word" = Some (JStr word) /\ obj !! "usage" = Some (usage_object used).
Proof.
  unfold lookupWordContext.
  destruct (getStoredPrompts defaults store) as [p|message]; [|discriminate].
  destruct (callDeepSeek store net retries_default) as [events [reply|message]];
    simpl; [|discriminate].
  intros [= <- <-]. split; by simplify_map_eq.
Qed.

(** When the clicked text is not in the vocabulary and the lookup
    succeeds, the popover shows what the service returned, with the
    clicked text as its word and the sentence found in the text as its
    context, whatever the service returned under these names; the
    loading mark is cleared; and the usage is reported exactly when
    the parent asked for it. *)
Theorem lookup_success_shows_the_local_context :
  forall (defaults : PromptConfig) (store : Storage) (net : Network)
         (reportsUsage : bool) (vocabulary : list VocabularyItem)
         (before : Popover) (text clickedText : string)
         (result : gmap string JSON) (used : TokenUsage),
    vocabMap vocabulary !! cleanText clickedText = None ->
    snd (lookupWordContext defaults store net clickedText text) = Resolved (result, used) ->
    exists props,
      handleWordClick defaults store net reportsUsage vocabulary text before clickedText
      = Resolved ({| selectedWord := Some (ShownObject props); loadingWord := None |},
                  if reportsUsage then Some used else None)
      /\ props !! "context" = Some (JStr (findSentence text clickedText))
      /\ props !! "word" = Some (JStr clickedText)
      /\ forall key, key <> "context" -> props !! key = result !! key.
Proof.
  intros defaults store net reportsUsage vocabulary before text clickedText result used
    Hmiss Hlookup.
  destruct (lookup_resolved _ _ _ _ _ _ _ Hlookup) as [Hword _].
  exists (<["context" := JStr (findSentence text clickedText)]> result).
  unfold handleWordClick. rewrite Hmiss, Hlookup. cbn [fst snd selectedWord].
  split; [done|]. split; [by simplify_map_eq|]. split.
  - by rewrite lookup_insert_ne.
  - intros key Hkey. by rewrite lookup_insert_ne.
Qed.

Lemma lookup_success_shows_the_local_context_witness :
  exists props,
    handleWordClick Examples.prompts Examples.with_key Examples.tampering true
      [Examples.cat] "The owl sat. It was happy."
      {| selectedWord := None; loadingWord := None |} "owl"
    = Resolved ({| selectedWord := Some (ShownObject props); loadingWord := None |},
                if true then Some (usage Examples.tampered_reply) else None)
    /\ props !! "context" = Some (JStr (findSentence "The owl sat. It was happy." "owl"))
    /\ props !! "word" = Some (JStr "owl")
    /\ forall key, key <> "context" ->
         props !! key
         = (<["usage" := usage_object (usage Examples.tampered_reply)]>
            (<["word" := JStr "owl"]> (spread (content Examples.tampered_reply)))) !! key.
Proof.
  apply (lookup_success_shows_the_local_context Examples.prompts Examples.with_key
           Examples.tampering true [Examples.cat]
           {| selectedWord := None; loadingWord := None |}
           "The owl sat. It was happy." "owl").
  - vm_compute. reflexivity.
  - reflexivity.
Defined.

(** Every click leaves something to show: whatever the vocabulary,
    the storage and the network, [handleWordClick] settles normally
    with a selected word, and the loading mark it leaves is the one it
    found (entry from the vocabulary) or none (lookup made). *)
Theorem every_click_shows_something :
  forall (defaults : PromptConfig) (store : Storage) (net : Network)
         (reportsUsage : bool) (vocabulary : list VocabularyItem)
         (before : Popover) (text clickedText : string),
    exists shownWord loading reported,
      handleWordClick defaults store net reportsUsage vocabulary text before clickedText
      = Resolved ({| selectedWord := Some shownWord; loadingWord := loading |}, reported)
      /\ (loading = None \/ loading = loadingWord before)
      /\ (reportsUsage = false -> reported = None).
Proof.
  intros defaults store net reportsUsage vocabulary before text clickedText.
  unfold handleWordClick.
  destruct (vocabMap vocabulary !! cleanText clickedText) as [cached|].
  - eexists _, _, _. split; [reflexivity|]. split; [by right|done].
  - destruct (snd (lookupWordContext defaults store net clickedText text))
      as [[result used]|message]; cbn [fst snd selectedWord].
    + eexists _, _, _. split; [reflexivity|]. split; [by left|].
      by intros ->.
    + eexists _, _, _. split; [reflexivity|]. split; [by left|done].
Qed.

End LookupMore.
